(** * ClipForge timeline export: a shallow embedding of [export_timeline]

    Embedding of [src/src-tauri/src/commands/ffmpeg.rs] ([export_timeline])
    and of the [VideoClip] / [VideoMetadata] structs of
    [src/src-tauri/src/commands/mod.rs].

    Modelling choices:
    - [f64] values are finite rationals, the two infinities or NaN.  Sums,
      differences and quotients of finite values are rounded to binary64
      (round to nearest, ties to even, with subnormals and overflow to an
      infinity); the comparison, [>], [f64::max] and the NaN / infinity
      cases follow IEEE 754 and Rust.  There is a single, unsigned zero.
    - The [format!]-built FFmpeg filter strings are represented as typed
      filter nodes carrying the same parameters, labels and order.
    - The FFmpeg process itself is not run: [export_timeline] returns the
      argument vector it would hand to [Command::new("ffmpeg")]. *)

From Stdlib Require Import List Ascii String ZArith QArith Qround Qpower Qabs Qminmax Lia Lqa Permutation Sorted Bool.
Import ListNotations.

(* ------------------------------------------------------------------ *)
(** ** Rust [f64] *)

Inductive f64 : Type :=
| Fin (q : Q)
| PInf
| NInf
| NaN.

(** Rounding to binary64.  [pow2 e] is [2^e]; [Qlog2_floor x] is
    [floor (log2 x)] for [x > 0]; [f64_exp x] is the exponent of the last
    significand bit of [x] (53 bits, or the subnormal step [2^-1074]). *)
Definition pow2 (e : Z) : Q := Qpower (2 # 1) e.

Definition Qlog2_floor (x : Q) : Z :=
  let a := (Z.log2 (Qnum x) - Z.log2 (Zpos (Qden x)))%Z in
  if Qle_bool (pow2 a) x then a else (a - 1)%Z.

Definition f64_exp (x : Q) : Z := Z.max (-1074) (Qlog2_floor x - 52).

(** Round to the nearest integer, ties to even. *)
Definition round_half_even (y : Q) : Z :=
  let f := Qfloor y in
  match Qcompare (y - inject_Z f) (1 # 2) with
  | Lt => f
  | Gt => (f + 1)%Z
  | Eq => if Z.even f then f else (f + 1)%Z
  end.

(** Round a positive rational to a multiple of [2^(f64_exp x)]. *)
Definition round_pos (x : Q) : Q :=
  let e := f64_exp x in inject_Z (round_half_even (x / pow2 e)) * pow2 e.

(** Round to binary64 with an unbounded exponent range. *)
Definition round_Q (x : Q) : Q :=
  match Qcompare x 0 with
  | Eq => 0
  | Gt => Qred (round_pos x)
  | Lt => Qred (- round_pos (- x))
  end.

(** The [f64] nearest to a rational: an infinity when the rounded value
    reaches [2^1024]. *)
Definition f64_of_Q (x : Q) : f64 :=
  let r := round_Q x in
  if Qle_bool (pow2 1024) r then PInf
  else if Qle_bool r (- pow2 1024) then NInf
  else Fin r.

(** [f64::partial_cmp]: [None] exactly when one side is NaN. *)
Definition f64_partial_cmp (a b : f64) : option comparison :=
  match a, b with
  | NaN, _ | _, NaN => None
  | PInf, PInf | NInf, NInf => Some Eq
  | PInf, _ => Some Gt
  | _, PInf => Some Lt
  | NInf, _ => Some Lt
  | _, NInf => Some Gt
  | Fin x, Fin y => Some (Qcompare x y)
  end.

(** The [>] operator on [f64]. *)
Definition f64_gt (a b : f64) : bool :=
  match f64_partial_cmp a b with
  | Some Gt => true
  | _ => false
  end.

Definition f64_add (a b : f64) : f64 :=
  match a, b with
  | NaN, _ | _, NaN => NaN
  | PInf, NInf | NInf, PInf => NaN
  | PInf, _ | _, PInf => PInf
  | NInf, _ | _, NInf => NInf
  | Fin x, Fin y => f64_of_Q (x + y)
  end.

Definition f64_neg (a : f64) : f64 :=
  match a with
  | Fin x => Fin (- x)
  | PInf => NInf
  | NInf => PInf
  | NaN => NaN
  end.

Definition f64_sub (a b : f64) : f64 := f64_add a (f64_neg b).

(** [f64::max]: a NaN argument is ignored in favour of the other one. *)
Definition f64_max (a b : f64) : f64 :=
  match a, b with
  | NaN, _ => b
  | _, NaN => a
  | _, _ => match f64_partial_cmp a b with
            | Some Lt => b
            | _ => a
            end
  end.

(* ------------------------------------------------------------------ *)
(** ** Data model ([commands/mod.rs]) *)

Record VideoMetadata : Type := {
  duration : f64;
  width : Z;
  height : Z;
  fps : f64;
  file_size : Z;
  format : string
}.

Record VideoClip : Type := {
  id : string;
  file_path : string;
  metadata : VideoMetadata;
  start_time : f64;
  end_time : f64;
  trim_in : f64;
  trim_out : f64
}.

Record ExportParams : Type := {
  clips : list VideoClip;
  output_path : string;
  resolution : string
}.

(* ------------------------------------------------------------------ *)
(** ** [sort_by] with a comparator that may panic

    [sorted_clips.sort_by(|a, b| a.start_time.partial_cmp(&b.start_time).unwrap())].
    The [unwrap] panics on an incomparable pair.  Rust's [sort_by] is a
    stable sort; its result is the stable sorted permutation, computed
    here by insertion of each head into the sorted tail (as the standard
    library's insertion pass [insert_head] does). *)

Inductive Panicking (A : Type) : Type :=
| Ok (a : A)
| Panic.
Arguments Ok {A} a.
Arguments Panic {A}.

Definition bind {A B} (m : Panicking A) (f : A -> Panicking B) : Panicking B :=
  match m with
  | Ok a => f a
  | Panic => Panic
  end.

Notation "x <- m ;; k" := (bind m (fun x => k)) (at level 61, m at next level, right associativity).

(** [a.start_time.partial_cmp(&b.start_time).unwrap()] *)
Definition cmp_start (a b : VideoClip) : Panicking comparison :=
  match f64_partial_cmp (start_time a) (start_time b) with
  | Some o => Ok o
  | None => Panic
  end.

(** Insert [x] in front of the first element that is not less than it. *)
Fixpoint insert_head (x : VideoClip) (s : list VideoClip) : Panicking (list VideoClip) :=
  match s with
  | [] => Ok [x]
  | y :: ys =>
      o <- cmp_start y x ;;
      match o with
      | Lt => r <- insert_head x ys ;; Ok (y :: r)
      | _ => Ok (x :: y :: ys)
      end
  end.

Fixpoint sort_by_start (l : list VideoClip) : Panicking (list VideoClip) :=
  match l with
  | [] => Ok []
  | x :: xs => s <- sort_by_start xs ;; insert_head x s
  end.

(* ------------------------------------------------------------------ *)
(** ** The filter graph *)

(** Link labels of the filter graph. *)
Inductive Label : Type :=
| LInV (i : nat)        (* [{i}:v] *)
| LInA (i : nat)        (* [{i}:a] *)
| LBlackV               (* [black_v] *)
| LBlackA               (* [black_a] *)
| LGapV (k : nat)       (* [gap_v{k}] *)
| LGapA (k : nat)       (* [gap_a{k}] *)
| LVTrim (i : nat)      (* [v{i}_trimmed] *)
| LATrim (i : nat)      (* [a{i}_trimmed] *)
| LOutV                 (* [outv] *)
| LOutA.                (* [outa] *)

(** Expressions of the [pad] filter's [x] and [y] options. *)
Inductive PadExpr : Type :=
| EOW | EOH | EIW | EIH
| ESub (a b : PadExpr)
| EDiv (a : PadExpr) (n : Z).

Inductive AspectMode : Type :=
| ARDisable
| ARDecrease
| ARIncrease.

(** One filter of a chain, with the options the source writes. *)
Inductive Op : Type :=
| Color (c : string) (w h : Z) (dur : f64) (rate : Z)  (* color=c=..:size=WxH:duration=..:rate=.. *)
| ANullSrc (layout : string) (sample_rate : Z)         (* anullsrc=channel_layout=..:sample_rate=.. *)
| SetSar (n : Z)                                       (* setsar=n *)
| Trim (start dur : f64)                               (* trim=start=..:duration=.. *)
| ATrim (start dur : f64)                              (* atrim=start=..:duration=.. *)
| SetPts                                               (* setpts=PTS-STARTPTS *)
| ASetPts                                              (* asetpts=PTS-STARTPTS *)
| Scale (w h : Z) (mode : AspectMode)                  (* scale=W:H:force_original_aspect_ratio=.. *)
| PadOp (w h : Z) (x y : PadExpr) (c : string)         (* pad=W:H:x:y:color *)
| Concat (n v a : nat).                                (* concat=n=..:v=..:a=.. *)

(** A filter chain [ins]op1,op2,...[outs]: one element of [filter_parts]. *)
Record Filter : Type := Node {
  ins : list Label;
  chain : list Op;
  outs : list Label
}.

(** One argument of the FFmpeg command line. *)
Inductive Arg : Type :=
| AStr (s : string)
| AFilterComplex (parts : list Filter)  (* filter_parts.join(";") *)
| ATime (t : f64).                      (* an [f64] written by [to_string()] *)

(** What [export_timeline] does: return an [Err] before running FFmpeg,
    panic, or run FFmpeg with the given arguments. *)
Inductive Outcome : Type :=
| Rejected (msg : string)
| Panicked
| RunFfmpeg (args : list Arg).

(* ------------------------------------------------------------------ *)
(** ** [export_timeline] *)

(** [match params.resolution.as_str() { "720p" => .., "1080p" => .., _ => .. }] *)
Definition resolve_resolution (r : string) : Z * Z :=
  if String.eqb r "720p" then (1280, 720)%Z
  else if String.eqb r "1080p" then (1920, 1080)%Z
  else (1920, 1080)%Z.

(** [iter().map(|c| c.end_time).fold(0.0, f64::max)] *)
Definition max_end_time (cs : list VideoClip) : f64 :=
  fold_left (fun acc c => f64_max acc (end_time c)) cs (Fin 0).

(** The mutable locals of the segment loop. *)
Record LoopState : Type := {
  filter_parts : list Filter;
  timeline_segments : list (Label * Label);
  current_time : f64;
  segment_count : nat
}.

(** [(ow-iw)/2] and [(oh-ih)/2] *)
Definition pad_x : PadExpr := EDiv (ESub EOW EIW) 2.
Definition pad_y : PadExpr := EDiv (ESub EOH EIH) 2.

Definition gap_video (gap_duration : f64) (k : nat) : Filter :=
  Node [LBlackV] [Trim (Fin 0) gap_duration; SetSar 1] [LGapV k].

Definition gap_audio (gap_duration : f64) (k : nat) : Filter :=
  Node [LBlackA] [ATrim (Fin 0) gap_duration] [LGapA k].

Definition video_filter (i : nat) (trim_start trim_duration : f64) (w h : Z) : Filter :=
  Node [LInV i]
       [Trim trim_start trim_duration; SetPts; Scale w h ARDecrease;
        PadOp w h pad_x pad_y "black"; SetSar 1]
       [LVTrim i].

Definition audio_filter (i : nat) (trim_start trim_duration : f64) : Filter :=
  Node [LInA i] [ATrim trim_start trim_duration; ASetPts] [LATrim i].

(** The body of [for (i, clip) in sorted_clips.iter().enumerate()]. *)
Definition loop_body (w h : Z) (i : nat) (clip : VideoClip) (st : LoopState) : LoopState :=
  let trim_start := trim_in clip in
  let trim_duration := f64_sub (trim_out clip) (trim_in clip) in
  let st :=
    if f64_gt (start_time clip) (current_time st) then
      let gap_duration := f64_sub (start_time clip) (current_time st) in
      let k := segment_count st in
      {| filter_parts := filter_parts st ++ [gap_video gap_duration k; gap_audio gap_duration k];
         timeline_segments := timeline_segments st ++ [(LGapV k, LGapA k)];
         current_time := current_time st;
         segment_count := S k |}
    else st in
  {| filter_parts := filter_parts st ++ [video_filter i trim_start trim_duration w h;
                                         audio_filter i trim_start trim_duration];
     timeline_segments := timeline_segments st ++ [(LVTrim i, LATrim i)];
     current_time := end_time clip;
     segment_count := segment_count st |}.

Fixpoint timeline_loop (w h : Z) (i : nat) (cs : list VideoClip) (st : LoopState) : LoopState :=
  match cs with
  | [] => st
  | c :: cs' => timeline_loop w h (S i) cs' (loop_body w h i c st)
  end.

(** The two generators pushed before the loop. *)
Definition black_video (w h : Z) (max_duration : f64) : Filter :=
  Node [] [Color "black" w h max_duration 30; SetSar 1] [LBlackV].

Definition black_audio : Filter :=
  Node [] [ANullSrc "stereo" 48000] [LBlackA].

Definition initial_state (w h : Z) (sorted_clips : list VideoClip) : LoopState :=
  let max_duration := f64_add (max_end_time sorted_clips) (Fin 1) in
  {| filter_parts := [black_video w h max_duration; black_audio];
     timeline_segments := [];
     current_time := Fin 0;
     segment_count := 0 |}.

(** [timeline_segments.join("")] followed by [concat=n=..:v=1:a=1[outv][outa]]. *)
Definition concat_filter (segs : list (Label * Label)) : Filter :=
  Node (flat_map (fun '(v, a) => [v; a]) segs) [Concat (List.length segs) 1 1] [LOutV; LOutA].

(** The complete [filter_parts] vector. *)
Definition build_filter_complex (w h : Z) (sorted_clips : list VideoClip) : list Filter :=
  let st := timeline_loop w h 0 sorted_clips (initial_state w h sorted_clips) in
  filter_parts st ++ [concat_filter (timeline_segments st)].

(** [total_duration = max_end_time + 0.1]; the literal [0.1] is the
    [f64] nearest to [1/10]. *)
Definition total_duration (sorted_clips : list VideoClip) : f64 :=
  f64_add (max_end_time sorted_clips) (f64_of_Q (1 # 10)).

Definition build_args (p : ExportParams) (sorted_clips : list VideoClip) : list Arg :=
  let '(w, h) := resolve_resolution (resolution p) in
  [AStr "-y"]
  ++ flat_map (fun c => [AStr "-i"; AStr (file_path c)]) sorted_clips
  ++ [AStr "-filter_complex"; AFilterComplex (build_filter_complex w h sorted_clips)]
  ++ [AStr "-map"; AStr "[outv]"; AStr "-map"; AStr "[outa]";
      AStr "-c:v"; AStr "libx264"; AStr "-preset"; AStr "medium";
      AStr "-crf"; AStr "23"; AStr "-c:a"; AStr "aac"; AStr "-b:a"; AStr "128k";
      AStr "-movflags"; AStr "+faststart"]
  ++ [AStr "-t"; ATime (total_duration sorted_clips)]
  ++ [AStr (output_path p)].

Definition export_timeline (p : ExportParams) : Outcome :=
  match clips p with
  | [] => Rejected "No clips to export"
  | _ =>
      match sort_by_start (clips p) with
      | Panic => Panicked
      | Ok sorted_clips => RunFfmpeg (build_args p sorted_clips)
      end
  end.

(* ------------------------------------------------------------------ *)
(** ** Reading the planned segments off the emitted graph *)

(** A planning-level segment: a gap of a duration, or the trim window
    [(trim_start, trim_duration)] of input number [i]. *)
Inductive Segment : Type :=
| GapSegment (dur : f64)
| ClipSegment (i : nat) (trim_start trim_duration : f64).

(** The segment a video sub-chain stands for; other nodes stand for none. *)
Definition node_segment (f : Filter) : option Segment :=
  match f with
  | Node [LBlackV] (Trim _ d :: _) [LGapV _] => Some (GapSegment d)
  | Node [LInV i] (Trim s d :: _) [LVTrim _] => Some (ClipSegment i s d)
  | _ => None
  end.

Fixpoint planned_segments (fs : list Filter) : list Segment :=
  match fs with
  | [] => []
  | f :: fs' =>
      match node_segment f with
      | Some s => s :: planned_segments fs'
      | None => planned_segments fs'
      end
  end.

(** The [-filter_complex] argument of an FFmpeg command line. *)
Fixpoint filter_complex_of (args : list Arg) : list Filter :=
  match args with
  | [] => []
  | AFilterComplex fs :: _ => fs
  | _ :: args' => filter_complex_of args'
  end.

(** The value following [-t]. *)
Fixpoint duration_limit (args : list Arg) : option f64 :=
  match args with
  | [] => None
  | a :: args' =>
      match a, args' with
      | AStr s, ATime t :: _ => if String.eqb s "-t" then Some t else duration_limit args'
      | _, _ => duration_limit args'
      end
  end.

Definition outcome_segments (o : Outcome) : option (list Segment) :=
  match o with
  | RunFfmpeg args => Some (planned_segments (filter_complex_of args))
  | _ => None
  end.

(** The planner as the specification words it (section 4.2): a cursor
    from 0; a gap of [start_time - cursor] exactly when
    [start_time > cursor]; then the clip's full trim window; then
    [cursor := end_time]; nothing after the last clip. *)
Fixpoint spec_plan (cursor : f64) (i : nat) (cs : list VideoClip) : list Segment :=
  match cs with
  | [] => []
  | c :: cs' =>
      (if f64_gt (start_time c) cursor then [GapSegment (f64_sub (start_time c) cursor)] else [])
      ++ ClipSegment i (trim_in c) (f64_sub (trim_out c) (trim_in c))
      :: spec_plan (end_time c) (S i) cs'
  end.

Definition segment_duration (s : Segment) : f64 :=
  match s with
  | GapSegment d => d
  | ClipSegment _ _ d => d
  end.

Definition sum_durations (ss : list Segment) : f64 :=
  fold_right (fun s acc => f64_add (segment_duration s) acc) (Fin 0) ss.

(* ------------------------------------------------------------------ *)
(** ** Sample clips *)

Definition meta0 : VideoMetadata :=
  {| duration := Fin 10; width := 640; height := 480; fps := Fin 30;
     file_size := 0; format := "mp4" |}.

Definition mk_clip (name : string) (s e ti to : f64) : VideoClip :=
  {| id := name; file_path := name; metadata := meta0;
     start_time := s; end_time := e; trim_in := ti; trim_out := to |}.

(** Clip A placed at [0,2) and clip B placed at [5,7), both trimmed to [0,2]. *)
Definition clipA : VideoClip := mk_clip "a.mp4" (Fin 0) (Fin 2) (Fin 0) (Fin 2).
Definition clipB : VideoClip := mk_clip "b.mp4" (Fin 5) (Fin 7) (Fin 0) (Fin 2).

Definition params_of (cs : list VideoClip) : ExportParams :=
  {| clips := cs; output_path := "out.mp4"; resolution := "1080p" |}.

(* ------------------------------------------------------------------ *)
(** ** Clips with a NaN start *)

Definition nan_start (c : VideoClip) : Prop := start_time c = NaN.

(* ------------------------------------------------------------------ *)
(** ** More sample clips *)

(** Overlapping clips A = [0,5) and B = [3,7). *)
Definition clipA05 : VideoClip := mk_clip "a.mp4" (Fin 0) (Fin 5) (Fin 0) (Fin 5).
Definition clipB37 : VideoClip := mk_clip "b.mp4" (Fin 3) (Fin 7) (Fin 0) (Fin 4).

(** A malformed clip: negative start_time, trim_out < trim_in. *)
Definition clip_bad : VideoClip := mk_clip "c.mp4" (Fin (-1)) (Fin 2) (Fin 4) (Fin 1).

(** A clip whose start_time is NaN, and one whose start_time is +inf. *)
Definition clip_nan : VideoClip := mk_clip "n.mp4" NaN (Fin 2) (Fin 0) (Fin 2).
Definition clip_inf : VideoClip := mk_clip "i.mp4" PInf (Fin 2) (Fin 0) (Fin 2).

(* ------------------------------------------------------------------ *)
(** ** Finite values and the maximum end time *)

(** [a] is the finite value [q] (up to [Qeq]). *)
Definition f64_is (a : f64) (q : Q) : Prop :=
  match a with
  | Fin x => x == q
  | _ => False
  end.

Definition is_finite (a : f64) : Prop := exists q, a = Fin q.

Definition end_q (c : VideoClip) : Q :=
  match end_time c with Fin q => q | _ => 0 end.

Definition start_q (c : VideoClip) : Q :=
  match start_time c with Fin q => q | _ => 0 end.

(** [m] is the maximum of 0 and the end times of [l]. *)
Definition is_max_end (l : list VideoClip) (m : Q) : Prop :=
  0 <= m
  /\ Forall (fun c => end_q c <= m) l
  /\ (m == 0 \/ Exists (fun c => end_q c == m) l).

(* ------------------------------------------------------------------ *)
(** ** A clip placed before time 0 *)

(** A clip placed at [-3,-1). *)
Definition clip_neg : VideoClip := mk_clip "neg.mp4" (Fin (-3)) (Fin (-1)) (Fin 0) (Fin 2).

(* ------------------------------------------------------------------ *)
(** ** The concatenation node *)

Definition is_concat_op (o : Op) : bool :=
  match o with Concat _ _ _ => true | _ => false end.

Definition no_concat (f : Filter) : bool :=
  negb (existsb is_concat_op (chain f)).

(** The audio sub-chain of a segment: a gap's [atrim] of [black_a] or a
    clip's [atrim] of its input's audio. *)
Definition is_audio_subchain (f : Filter) : bool :=
  match f with
  | Node [LBlackA] (ATrim _ _ :: _) [LGapA _] => true
  | Node [LInA _] (ATrim _ _ :: _) [LATrim _] => true
  | _ => false
  end.

(** Output labels of the video sub-chains (the nodes that stand for a
    segment), and of the audio sub-chains, in emission order. *)
Definition video_outputs (fs : list Filter) : list Label :=
  flat_map (fun f => match node_segment f with Some _ => outs f | None => [] end) fs.

Definition audio_outputs (fs : list Filter) : list Label :=
  flat_map (fun f => if is_audio_subchain f then outs f else []) fs.

Definition loop_inv (st : LoopState) : Prop :=
  map fst (timeline_segments st) = video_outputs (filter_parts st)
  /\ map snd (timeline_segments st) = audio_outputs (filter_parts st)
  /\ List.length (timeline_segments st) = List.length (planned_segments (filter_parts st))
  /\ Forall (fun f => no_concat f = true) (filter_parts st).

(* ------------------------------------------------------------------ *)
(** ** Duration conservation *)

(** The clip invariants of the specification (section 3), with the
    placement duration equal to the trimmed-source duration (the policy
    the specification takes in section 9). *)
Definition valid_clip (c : VideoClip) : Prop :=
  match start_time c, end_time c, trim_in c, trim_out c with
  | Fin s, Fin e, Fin ti, Fin to =>
      0 <= s /\ s <= e /\ 0 <= ti /\ ti <= to /\ to - ti == e - s
  | _, _, _, _ => False
  end.

(** Consecutive clips do not overlap: [clip[i].end_time <= clip[i+1].start_time]. *)
Fixpoint non_overlapping (l : list VideoClip) : Prop :=
  match l with
  | c1 :: ((c2 :: _) as r) => end_q c1 <= start_q c2 /\ non_overlapping r
  | _ => True
  end.

(** The end of the last clip, or [q] for no clip. *)
Definition last_end (q : Q) (l : list VideoClip) : Q :=
  fold_left (fun _ c => end_q c) l q.


(** [a] is a whole number of seconds in [0, 2^53]. *)
Definition whole_time (a : f64) : Prop :=
  exists n : Z, a = Fin (inject_Z n) /\ (0 <= n <= 2 ^ 53)%Z.

Definition whole_times (c : VideoClip) : Prop :=
  whole_time (start_time c) /\ whole_time (end_time c)
  /\ whole_time (trim_in c) /\ whole_time (trim_out c).

(** The [f64] literals [0.1], [0.4] and [1.2]. *)
Definition f64_0_1 : f64 := f64_of_Q (1 # 10).
Definition f64_0_4 : f64 := f64_of_Q (4 # 10).
Definition f64_1_2 : f64 := f64_of_Q (12 # 10).

(** Clips placed at [0, 0.1) and [0.4, 1.2), the second one trimmed to
    [0, 1.2 - 0.4]. *)
Definition clip_r1 : VideoClip := mk_clip "r1.mp4" (Fin 0) f64_0_1 (Fin 0) f64_0_1.
Definition clip_r2 : VideoClip := mk_clip "r2.mp4" f64_0_4 f64_1_2 (Fin 0) (f64_sub f64_1_2 f64_0_4).

(* ------------------------------------------------------------------ *)
(** ** Order independence and stability of the sort *)

(** A rank of the [f64] values other than NaN that orders them as
    [f64::partial_cmp] does: [x / (1 + |x|)] maps the rationals
    increasingly into (-1, 1), [-inf] goes to -1 and [+inf] to 1. *)
Definition f64_rank (a : f64) : Q :=
  match a with
  | Fin x => x / (1 + Qabs x)
  | PInf => 1
  | NInf => -1
  | NaN => 0
  end.

Definition start_rank (c : VideoClip) : Q := f64_rank (start_time c).

(** [sort_by_start] on start times other than NaN, without the panic path. *)
Fixpoint insertQ (x : VideoClip) (s : list VideoClip) : list VideoClip :=
  match s with
  | [] => [x]
  | y :: ys => if Qlt_le_dec (start_rank y) (start_rank x) then y :: insertQ x ys else x :: y :: ys
  end.

Fixpoint sortQ (l : list VideoClip) : list VideoClip :=
  match l with
  | [] => []
  | x :: xs => insertQ x (sortQ xs)
  end.

(** Ranks as canonical rationals: two clips have equal ranks exactly when
    their keys are equal. *)
Definition start_key (c : VideoClip) : Q := Qred (start_rank c).

(** [c.start_time.partial_cmp(&v) == Some(Equal)] *)
Definition same_start (v : f64) (c : VideoClip) : bool :=
  match f64_partial_cmp (start_time c) v with
  | Some Eq => true
  | _ => false
  end.

Ltac case_Qlt :=
  repeat (match goal with
          | |- context [if Qlt_le_dec ?a ?b then _ else _] => destruct (Qlt_le_dec a b)
          end; simpl).

(* ------------------------------------------------------------------ *)
(** ** Frame geometry of the emitted video sub-chains

    Geometry of FFmpeg's [scale] and [pad] filters, used to read the
    emitted chains: [scale] with [force_original_aspect_ratio=decrease]
    computes [tmp_w = av_rescale(h, in_w, in_h)],
    [tmp_h = av_rescale(w, in_h, in_w)] and keeps [min(tmp_w, w)],
    [min(tmp_h, h)] (libavfilter [ff_scale_adjust_dimensions]);
    [av_rescale] rounds to nearest.  [pad] outputs a [w x h] frame with
    the input at the evaluated offsets, and fails when the input does not
    fit.  Chroma alignment of the offsets is not modelled. *)

Definition av_rescale (a b c : Z) : Z := ((a * b + c / 2) / c)%Z.

Definition scale_dims (in_w in_h w h : Z) (mode : AspectMode) : Z * Z :=
  match mode with
  | ARDisable => (w, h)
  | ARDecrease => (Z.min (av_rescale h in_w in_h) w, Z.min (av_rescale w in_h in_w) h)
  | ARIncrease => (Z.max (av_rescale h in_w in_h) w, Z.max (av_rescale w in_h in_w) h)
  end.

Fixpoint eval_pad_expr (ow oh iw ih : Z) (e : PadExpr) : Z :=
  match e with
  | EOW => ow
  | EOH => oh
  | EIW => iw
  | EIH => ih
  | ESub a b => (eval_pad_expr ow oh iw ih a - eval_pad_expr ow oh iw ih b)%Z
  | EDiv a n => Z.quot (eval_pad_expr ow oh iw ih a) n
  end.

(** The frame size after a chain of video filters, from an input size. *)
Fixpoint frame_size (ops : list Op) (sz : Z * Z) : option (Z * Z) :=
  match ops with
  | [] => Some sz
  | Scale w h m :: ops' => frame_size ops' (scale_dims (fst sz) (snd sz) w h m)
  | PadOp w h x y _ :: ops' =>
      let px := eval_pad_expr w h (fst sz) (snd sz) x in
      let py := eval_pad_expr w h (fst sz) (snd sz) y in
      if (0 <=? px) && (px + fst sz <=? w) && (0 <=? py) && (py + snd sz <=? h) then
        frame_size ops' (w, h)
      else None
  | Color _ w h _ _ :: ops' => frame_size ops' (w, h)
  | _ :: ops' => frame_size ops' sz
  end%Z.

(** Every node reading a source video stream is a clip's video sub-chain
    at the target size. *)
Definition video_inputs_ok (w h : Z) (fs : list Filter) : Prop :=
  Forall (fun f => forall i, ins f = [LInV i] ->
                   exists ts td, f = video_filter i ts td w h) fs.

(* ------------------------------------------------------------------ *)
(** ** The other commands of [ffmpeg.rs] and the caller [import_video]

    External processes are inputs of the model: [Command::new(..)
    .args(..).output()] either fails to spawn (the [Display] text of the
    [io::Error]) or returns the exit status and the captured streams (after
    [String::from_utf8_lossy]). *)

Inductive ProcResult : Type :=
| SpawnFailed (e : string)
| Exited (success : bool) (stdout stderr : string).

(** [Result<T, String>] *)
Inductive result (T : Type) : Type :=
| ok (t : T)
| err (e : string).
Arguments ok {T} t.
Arguments err {T} e.

(** [str::replace(from, to)] for a non-empty [from] (the only kind the
    code uses): the leftmost occurrences are replaced, scanning from the
    left and resuming after each match; [skip] counts the characters of
    the match being stepped over. *)
Fixpoint replace_from (from to : string) (skip : nat) (s : string) : string :=
  match s with
  | EmptyString => EmptyString
  | String c s' =>
      match skip with
      | S k => replace_from from to k s'
      | O =>
          if String.prefix from s
          then (to ++ replace_from from to (pred (String.length from)) s')%string
          else String c (replace_from from to 0 s')
      end
  end.

Definition str_replace (from to s : string) : string := replace_from from to 0 s.

(** [input_path.replace(".mov", "_converted.mp4")] *)
Definition mov_output_path (input_path : string) : string :=
  str_replace ".mov" "_converted.mp4" input_path.

Definition convert_args (input_path : string) : list Arg :=
  [AStr "-i"; AStr input_path;
   AStr "-c:v"; AStr "libx264"; AStr "-c:a"; AStr "aac";
   AStr "-preset"; AStr "fast"; AStr "-crf"; AStr "23";
   AStr (mov_output_path input_path)].

Definition convert_mov_to_mp4 (ffmpeg : list Arg -> ProcResult) (input_path : string) : result string :=
  let output_path := mov_output_path input_path in
  match ffmpeg (convert_args input_path) with
  | SpawnFailed e => err ("Failed to execute ffmpeg: " ++ e)%string
  | Exited false _ stderr => err ("ffmpeg conversion failed: " ++ stderr)%string
  | Exited true _ _ => ok output_path
  end.

(** [s] has an occurrence of [pat]. *)
Fixpoint contains (pat s : string) : bool :=
  match s with
  | EmptyString => String.prefix pat s
  | String _ s' => String.prefix pat s || contains pat s'
  end.

(** *** [serde_json::Value] *)

(** [serde_json::Number]: a [u64], a negative [i64], or a float. *)
Inductive Number : Type :=
| PosInt (n : Z)
| NegInt (n : Z)
| Float (x : f64).

(** An object lists its members in the order of the JSON text. *)
#[warnings="-register-all"]
Inductive Value : Type :=
| VNull
| VBool (b : bool)
| VNumber (n : Number)
| VString (s : string)
| VArray (a : list Value)
| VObject (m : list (string * Value)).

(** [Map::get]: the parser inserts the members in order, so with a
    duplicated key the last member wins. *)
Definition map_get (m : list (string * Value)) (k : string) : option Value :=
  fold_left (fun acc '(k', v) => if String.eqb k' k then Some v else acc) m None.

(** [value[k]] on a [Value]: [Null] unless [value] is an object with the key. *)
Definition value_index (v : Value) (k : string) : Value :=
  match v with
  | VObject m => match map_get m k with Some x => x | None => VNull end
  | _ => VNull
  end.

(** [map[k]] on a [Map<String, Value>]: panics when the key is absent. *)
Definition map_index (m : list (string * Value)) (k : string) : Panicking Value :=
  match map_get m k with
  | Some x => Ok x
  | None => Panic
  end.

Definition as_object (v : Value) : option (list (string * Value)) :=
  match v with VObject m => Some m | _ => None end.

Definition as_array (v : Value) : option (list Value) :=
  match v with VArray a => Some a | _ => None end.

Definition as_str (v : Value) : option string :=
  match v with VString s => Some s | _ => None end.

Definition as_u64 (v : Value) : option Z :=
  match v with VNumber (PosInt n) => Some n | _ => None end.

(** [value == "..."] *)
Definition value_eq_str (v : Value) (s : string) : bool :=
  match as_str v with Some s' => String.eqb s' s | None => false end.

Definition unwrap_or {A : Type} (o : option A) (d : A) : A :=
  match o with Some a => a | None => d end.

(** *** [str::parse::<u64>] *)

(** [to_digit(10)] *)
Definition to_digit10 (c : ascii) : option Z :=
  let n := nat_of_ascii c in
  if (48 <=? n)%nat && (n <=? 57)%nat then Some (Z.of_nat (n - 48)) else None.

(** The digit loop: [checked_mul(10)] then [checked_add(digit)] on [u64]. *)
Fixpoint u64_digits (acc : Z) (s : string) : option Z :=
  match s with
  | EmptyString => Some acc
  | String c s' =>
      match to_digit10 c with
      | None => None
      | Some d =>
          if (acc * 10 <? 2 ^ 64)%Z then
            if (acc * 10 + d <? 2 ^ 64)%Z then u64_digits (acc * 10 + d) s' else None
          else None
      end
  end.

(** An empty string or a lone sign is an error; one leading ['+'] is
    skipped; for an unsigned type a leading ['-'] is an invalid digit. *)
Definition parse_u64 (s : string) : option Z :=
  match s with
  | EmptyString => None
  | String c s' =>
      if Ascii.eqb c "+"%char || Ascii.eqb c "-"%char then
        match s' with
        | EmptyString => None
        | _ => if Ascii.eqb c "+"%char then u64_digits 0 s' else u64_digits 0 s
        end
      else u64_digits 0 s
  end.

(** [f64] division; zeros are the positive zero (the model has no signed zero). *)
Definition f64_div (a b : f64) : f64 :=
  match a, b with
  | NaN, _ | _, NaN => NaN
  | (PInf | NInf), (PInf | NInf) => NaN
  | PInf, Fin y => if Qle_bool 0 y then PInf else NInf
  | NInf, Fin y => if Qle_bool 0 y then NInf else PInf
  | Fin _, (PInf | NInf) => Fin 0
  | Fin x, Fin y =>
      if Qeq_bool y 0 then
        if Qeq_bool x 0 then NaN else if Qle_bool 0 x then PInf else NInf
      else f64_of_Q (x / y)
  end.

(** [s.split_once(sep)]: split at the first [sep]. *)
Fixpoint split_once (sep : ascii) (s : string) : option (string * string) :=
  match s with
  | EmptyString => None
  | String c s' =>
      if Ascii.eqb c sep then Some (EmptyString, s')
      else match split_once sep s' with
           | Some (a, b) => Some (String c a, b)
           | None => None
           end
  end.

(** *** [get_video_metadata] and [import_video] *)

Section Probe.

(** [str::parse::<f64>] (Rust's decimal-to-float conversion). *)
Variable parse_f64 : string -> option f64.

(** [serde_json::from_slice], with the [Display] text of its error. *)
Variable from_slice : string -> result Value.

(** [Path::new(p).exists()] *)
Variable path_exists : string -> bool.

(** [Uuid::new_v4().to_string()] *)
Variable new_uuid : string.

(** [num.parse::<f64>().unwrap_or(0.0) / den.parse::<f64>().unwrap_or(1.0)],
    or [0.0] when the string has no ['/']. *)
Definition fps_of (fps_str : string) : f64 :=
  match split_once "/"%char fps_str with
  | Some (num, den) =>
      f64_div (unwrap_or (parse_f64 num) (Fin 0)) (unwrap_or (parse_f64 den) (Fin 1))
  | None => Fin 0
  end.

(** The first stream whose [codec_type] is ["video"]. *)
Definition find_video_stream (json_output : Value) : option Value :=
  match as_array (value_index json_output "streams") with
  | Some streams => find (fun s => value_eq_str (value_index s "codec_type") "video") streams
  | None => None
  end.

(** [get_video_metadata] after the JSON is parsed. *)
Definition metadata_of_json (json_output : Value) : Panicking (result VideoMetadata) :=
  match as_object (value_index json_output "format") with
  | None => Ok (err "Missing format information")
  | Some format =>
      match find_video_stream json_output with
      | None => Ok (err "No video stream found")
      | Some video_stream =>
          d <- map_index format "duration" ;;
          let duration := unwrap_or (match as_str d with Some s => parse_f64 s | None => None end) (Fin 0) in
          let width := (unwrap_or (as_u64 (value_index video_stream "width")) 0 mod 2 ^ 32)%Z in
          let height := (unwrap_or (as_u64 (value_index video_stream "height")) 0 mod 2 ^ 32)%Z in
          let fps_str := unwrap_or (as_str (value_index video_stream "r_frame_rate")) "0/1"%string in
          let fps := fps_of fps_str in
          sz <- map_index format "size" ;;
          let file_size := unwrap_or (match as_str sz with Some s => parse_u64 s | None => None end) 0%Z in
          fn <- map_index format "format_name" ;;
          let format_name := unwrap_or (as_str fn) "unknown"%string in
          Ok (ok {| duration := duration; width := width; height := height; fps := fps;
                    file_size := file_size; format := format_name |})
      end
  end.

Definition ffprobe_args (file_path : string) : list Arg :=
  [AStr "-v"; AStr "quiet"; AStr "-print_format"; AStr "json";
   AStr "-show_format"; AStr "-show_streams"; AStr file_path].

Definition get_video_metadata (ffprobe : list Arg -> ProcResult) (file_path : string)
  : Panicking (result VideoMetadata) :=
  match ffprobe (ffprobe_args file_path) with
  | SpawnFailed e => Ok (err ("Failed to execute ffprobe: " ++ e)%string)
  | Exited false _ stderr => Ok (err ("ffprobe failed: " ++ stderr)%string)
  | Exited true stdout _ =>
      match from_slice stdout with
      | err e => Ok (err ("Failed to parse ffprobe output: " ++ e)%string)
      | ok json_output => metadata_of_json json_output
      end
  end.

(** [import_video] of [commands/filesystem.rs]. *)
Definition import_video (ffprobe : list Arg -> ProcResult) (path : string)
  : Panicking (result VideoClip) :=
  if negb (path_exists path) then Ok (err "File does not exist")
  else
    r <- get_video_metadata ffprobe path ;;
    match r with
    | err e => Ok (err e)
    | ok md =>
        Ok (ok {| id := new_uuid; file_path := path; metadata := md;
                  start_time := Fin 0; end_time := duration md;
                  trim_in := Fin 0; trim_out := duration md |})
    end.

End Probe.

(** *** The other commands of [filesystem.rs] *)

(** [get_video_url]: always [Ok], with every ['/'] of the path made ['_']. *)
Definition get_video_url (file_path : string) : result string :=
  ok ("tauri://localhost/video/" ++ str_replace "/" "_" file_path)%string.

(** [Path::join] on Unix ([PathBuf::push]): an absolute path (one with a
    root ['/']) replaces the base; otherwise a ['/'] is put in between
    unless the base is empty or already ends with one. *)
Definition need_sep (base : string) : bool :=
  match String.get (pred (String.length base)) base with
  | Some c => negb (Ascii.eqb c "/"%char)
  | None => false
  end.

Definition path_join (base path : string) : string :=
  match path with
  | String "/"%char _ => path
  | _ => if need_sep base then (base ++ "/" ++ path)%string else (base ++ path)%string
  end.

(** [import_video_from_file]: [std::fs::write] of the data to
    [temp_dir().join(file_name)], then [import_video] of that path
    ([to_string_lossy] is the identity on a path built from strings). *)
Definition import_video_from_file (parse_f64 : string -> option f64) (from_slice : string -> result Value)
    (path_exists : string -> bool) (new_uuid : string) (ffprobe : list Arg -> ProcResult)
    (write_file : string -> list Byte.byte -> result unit) (temp_dir : string)
    (file_name : string) (file_data : list Byte.byte) : Panicking (result VideoClip) :=
  let temp_path := path_join temp_dir file_name in
  match write_file temp_path file_data with
  | err e => Ok (err ("Failed to write temporary file: " ++ e)%string)
  | ok _ => import_video parse_f64 from_slice path_exists new_uuid ffprobe temp_path
  end.

(** *** Reading the export's arguments and graph *)

(** The values of the [-i] options, in order. *)
Fixpoint input_paths (args : list Arg) : list string :=
  match args with
  | AStr o :: ((AStr s :: rest') as rest) =>
      if String.eqb o "-i" then s :: input_paths rest' else input_paths rest
  | _ :: rest => input_paths rest
  | [] => []
  end.

Definition label_eq_dec (a b : Label) : {a = b} + {a <> b}.
Proof. decide equality; apply Nat.eq_dec. Defined.

(** The number of nodes of the graph that read the label [l]. *)
Definition count_reads (l : Label) (fs : list Filter) : nat :=
  List.length (filter (fun f => if in_dec label_eq_dec l (ins f) then true else false) fs).

Definition is_gap (s : Segment) : bool :=
  match s with GapSegment _ => true | ClipSegment _ _ _ => false end.




(** A parser for the witnesses: decimal integers. *)
Definition parse_int_f64 (s : string) : option f64 :=
  match parse_u64 s with Some n => Some (f64_of_Q (inject_Z n)) | None => None end.

(** *** Sample probe outputs and helpers of the proofs *)

Definition no_black_label (x : Label * Label) : Prop :=
  fst x <> LBlackV /\ fst x <> LBlackA /\ snd x <> LBlackV /\ snd x <> LBlackA.

Definition probe_no_size : Value :=
  VObject [("format"%string, VObject [("duration"%string, VString "12"); ("format_name"%string, VString "mov")]);
           ("streams"%string, VArray [VObject [("codec_type"%string, VString "video");
                                        ("width"%string, VNumber (PosInt 1920))]])].

Definition probe_two_streams : Value :=
  VObject [("format"%string, VObject [("duration"%string, VString "12"); ("size"%string, VString "2048");
                                      ("format_name"%string, VString "mov")]);
           ("streams"%string, VArray [VObject [("codec_type"%string, VString "audio")];
                                      VObject [("codec_type"%string, VString "video");
                                               ("width"%string, VNumber (PosInt (2 ^ 32 + 1920)));
                                               ("height"%string, VNumber (NegInt (-1)))]])].

Definition probe_ok (args : list Arg) : ProcResult := Exited true "{...}"%string ""%string.

(* ------------------------------------------------------------------ *)
(** * Proofs *)

(** ** Rounding to binary64 *)


Lemma pow2_pos (e : Z) : 0 < pow2 e.
Proof. apply Qpower_0_lt. reflexivity. Qed.

Lemma pow2_add (a b : Z) : pow2 (a + b) == pow2 a * pow2 b.
Proof. unfold pow2. apply Qpower_plus. discriminate. Qed.

Lemma pow2_le (a b : Z) : (a <= b)%Z -> pow2 a <= pow2 b.
Proof. intro H. apply Qpower_le_compat_l; [exact H|discriminate]. Qed.

Lemma pow2_lt (a b : Z) : (a < b)%Z -> pow2 a < pow2 b.
Proof. intro H. apply Qpower_lt_compat_l; [exact H|reflexivity]. Qed.

Lemma pow2_Z (e : Z) : (0 <= e)%Z -> pow2 e == inject_Z (2 ^ e).
Proof. intro H. unfold pow2. rewrite (Zpower_Qpower 2 e H). reflexivity. Qed.

Lemma pow2_le_inv (a b : Z) : pow2 a <= pow2 b -> (a <= b)%Z.
Proof. intro H. apply (Qpower_le_compat_l_inv (2#1)); [exact H|reflexivity]. Qed.

Lemma pow2_lt_inv (a b : Z) : pow2 a < pow2 b -> (a < b)%Z.
Proof. intro H. apply (Qpower_lt_compat_l_inv (2#1)); [exact H|reflexivity]. Qed.

(** Floor of [log2]. *)

Lemma Qmult_pow2_lt (x y : Q) (e : Z) : x * pow2 e < y * pow2 e <-> x < y.
Proof. split; intro H; [apply Qmult_lt_r in H|apply Qmult_lt_r]; auto using pow2_pos. Qed.


Lemma Qlog2_floor_bounds (x : Q) : 0 < x ->
  pow2 (Z.log2 (Qnum x) - Z.log2 (Zpos (Qden x)) - 1) < x
  /\ x < pow2 (Z.log2 (Qnum x) - Z.log2 (Zpos (Qden x)) + 1).
Proof.
  destruct x as [n d]. unfold Qlt at 1. cbn [Qnum Qden]. intro Hn. rewrite Z.mul_1_r in Hn.
  pose proof (Z.log2_spec n Hn) as [Hn1 Hn2].
  pose proof (Z.log2_spec (Zpos d) eq_refl) as [Hd1 Hd2].
  set (ln := Z.log2 n) in *. set (ld := Z.log2 (Zpos d)) in *.
  assert (Hln : (0 <= ln)%Z) by apply Z.log2_nonneg.
  assert (Hld : (0 <= ld)%Z) by apply Z.log2_nonneg.
  assert (Hx : (n # d) == inject_Z n * / inject_Z (Zpos d)).
  { unfold Qeq, Qmult, Qinv; simpl. lia. }
  split.
  - apply (Qmult_pow2_lt _ _ (ld + 1)). rewrite <- pow2_add.
    replace (ln - ld - 1 + (ld + 1))%Z with ln by lia.
    rewrite (pow2_Z ln), (pow2_Z (ld + 1)) by lia.
    unfold Qlt, Qmult; simpl. rewrite Z.pow_succ_r in Hd2 by lia. rewrite Z.pow_add_r by lia. nia.
  - apply (Qmult_pow2_lt _ _ ld). rewrite <- pow2_add.
    replace (ln - ld + 1 + ld)%Z with (ln + 1)%Z by lia.
    rewrite (pow2_Z ld), (pow2_Z (ln + 1)) by lia.
    unfold Qlt, Qmult; simpl. rewrite Z.pow_succ_r in Hn2 by lia. rewrite Z.pow_add_r by lia. nia.
Qed.

Lemma Qlog2_floor_spec (x : Q) : 0 < x ->
  pow2 (Qlog2_floor x) <= x /\ x < pow2 (Qlog2_floor x + 1).
Proof.
  intro Hx. pose proof (Qlog2_floor_bounds x Hx) as [H1 H2].
  unfold Qlog2_floor.
  set (a := (Z.log2 (Qnum x) - Z.log2 (Zpos (Qden x)))%Z) in *.
  destruct (Qle_bool (pow2 a) x) eqn:E.
  - apply Qle_bool_iff in E. split; [exact E|exact H2].
  - split; [now apply Qlt_le_weak|].
    replace (a - 1 + 1)%Z with a by lia.
    apply Qnot_le_lt. intro H. apply Qle_bool_iff in H. congruence.
Qed.

Lemma Qlog2_floor_unique (x : Q) (k : Z) :
  pow2 k <= x -> x < pow2 (k + 1) -> Qlog2_floor x = k.
Proof.
  intros H1 H2.
  assert (Hx : 0 < x) by (eapply Qlt_le_trans; [apply pow2_pos|exact H1]).
  destruct (Qlog2_floor_spec x Hx) as [H3 H4].
  assert (A : (Qlog2_floor x < k + 1)%Z) by (apply pow2_lt_inv; eapply Qle_lt_trans; eassumption).
  assert (B : (k < Qlog2_floor x + 1)%Z) by (apply pow2_lt_inv; eapply Qle_lt_trans; eassumption).
  lia.
Qed.

Lemma Qlog2_floor_mono (x y : Q) : 0 < x -> x <= y -> (Qlog2_floor x <= Qlog2_floor y)%Z.
Proof.
  intros Hx Hxy.
  assert (Hy : 0 < y) by (eapply Qlt_le_trans; eassumption).
  destruct (Qlog2_floor_spec x Hx) as [H1 _]. destruct (Qlog2_floor_spec y Hy) as [_ H4].
  assert (Qlog2_floor x < Qlog2_floor y + 1)%Z; [|lia].
  apply pow2_lt_inv. apply Qle_lt_trans with x; [exact H1|]. apply Qle_lt_trans with y; assumption.
Qed.

Lemma Qlog2_floor_proper (x y : Q) : 0 < x -> x == y -> Qlog2_floor x = Qlog2_floor y.
Proof.
  intros Hx E. destruct (Qlog2_floor_spec x Hx) as [H1 H2].
  symmetry. apply Qlog2_floor_unique; rewrite <- E; assumption.
Qed.

Lemma f64_exp_mono (x y : Q) : 0 < x -> x <= y -> (f64_exp x <= f64_exp y)%Z.
Proof. intros Hx Hxy. unfold f64_exp. pose proof (Qlog2_floor_mono x y Hx Hxy). lia. Qed.

(** Rounding to an integer, ties to even. *)

Lemma Qfloor_proper (x y : Q) : x == y -> Qfloor x = Qfloor y.
Proof.
  intro E. apply Z.le_antisymm; apply Qfloor_resp_le; rewrite E; apply Qle_refl.
Qed.

Lemma rhe_proper (x y : Q) : x == y -> round_half_even x = round_half_even y.
Proof.
  intro E. unfold round_half_even. rewrite (Qfloor_proper x y E).
  assert (Hc : (x - inject_Z (Qfloor y) ?= 1 # 2) = (y - inject_Z (Qfloor y) ?= 1 # 2)).
  { apply Qcompare_comp; [rewrite E|]; reflexivity. }
  rewrite Hc. reflexivity.
Qed.

Lemma rhe_bounds (y : Q) : (Qfloor y <= round_half_even y <= Qfloor y + 1)%Z.
Proof.
  unfold round_half_even.
  destruct (_ ?= _); [destruct (Z.even _)|..]; lia.
Qed.

Lemma rhe_int (k : Z) : round_half_even (inject_Z k) = k.
Proof.
  unfold round_half_even. rewrite Qfloor_Z.
  assert (H : (inject_Z k - inject_Z k ?= 1 # 2) = Lt).
  { rewrite (Qcompare_comp (inject_Z k - inject_Z k) 0 (Qplus_opp_r _) (1 # 2) (1 # 2) (Qeq_refl _)).
    reflexivity. }
  rewrite H. reflexivity.
Qed.

Lemma rhe_mono (x y : Q) : x <= y -> (round_half_even x <= round_half_even y)%Z.
Proof.
  intro Hxy. pose proof (Qfloor_resp_le x y Hxy) as Hf.
  pose proof (rhe_bounds x) as Bx. pose proof (rhe_bounds y) as By.
  destruct (Z.eq_dec (Qfloor x) (Qfloor y)) as [E|E]; [|lia].
  unfold round_half_even in *. rewrite E in *.
  set (f := Qfloor y) in *.
  assert (Hr : x - inject_Z f <= y - inject_Z f) by lra.
  destruct (Qcompare_spec (x - inject_Z f) (1 # 2)) as [Ex|Ex|Ex];
  destruct (Qcompare_spec (y - inject_Z f) (1 # 2)) as [Ey|Ey|Ey];
    destruct (Z.even f); try lia; exfalso; lra.
Qed.

Lemma rhe_le_int (y : Q) (k : Z) : y <= inject_Z k -> (round_half_even y <= k)%Z.
Proof. intro H. rewrite <- (rhe_int k). now apply rhe_mono. Qed.

Lemma rhe_ge_int (y : Q) (k : Z) : inject_Z k <= y -> (k <= round_half_even y)%Z.
Proof. intro H. rewrite <- (rhe_int k). now apply rhe_mono. Qed.

(** Rounding a positive rational. *)

Lemma round_pos_eq (x : Q) :
  round_pos x = inject_Z (round_half_even (x / pow2 (f64_exp x))) * pow2 (f64_exp x).
Proof. reflexivity. Qed.

Lemma f64_exp_proper (x y : Q) : 0 < x -> x == y -> f64_exp x = f64_exp y.
Proof. intros Hx E. unfold f64_exp. now rewrite (Qlog2_floor_proper x y Hx E). Qed.

Lemma round_pos_proper (x y : Q) : 0 < x -> x == y -> round_pos x == round_pos y.
Proof.
  intros Hx E. rewrite !round_pos_eq. rewrite <- (f64_exp_proper x y Hx E).
  rewrite (rhe_proper (x / pow2 (f64_exp x)) (y / pow2 (f64_exp x))); [reflexivity|].
  apply Qmult_comp; [exact E|reflexivity].
Qed.

Lemma scaled_lt (x : Q) : 0 < x -> x / pow2 (f64_exp x) < inject_Z (2 ^ 53).
Proof.
  intro Hx. destruct (Qlog2_floor_spec x Hx) as [_ H2].
  apply Qlt_shift_div_r; [apply pow2_pos|].
  rewrite <- pow2_Z by lia. rewrite <- pow2_add.
  eapply Qlt_le_trans; [exact H2|]. apply pow2_le. unfold f64_exp. lia.
Qed.

Lemma scaled_ge (x : Q) : 0 < x -> (-1074 < f64_exp x)%Z ->
  inject_Z (2 ^ 52) <= x / pow2 (f64_exp x).
Proof.
  intros Hx He. destruct (Qlog2_floor_spec x Hx) as [H1 _].
  apply Qle_shift_div_l; [apply pow2_pos|].
  rewrite <- pow2_Z by lia. rewrite <- pow2_add.
  eapply Qle_trans; [|exact H1]. apply pow2_le. unfold f64_exp in *. lia.
Qed.

Lemma scaled_pos (x : Q) : 0 < x -> 0 < x / pow2 (f64_exp x).
Proof.
  intro Hx. apply Qlt_shift_div_l; [apply pow2_pos|]. now rewrite Qmult_0_l.
Qed.

Lemma round_pos_nonneg (x : Q) : 0 < x -> 0 <= round_pos x.
Proof.
  intro Hx. rewrite round_pos_eq. apply Qmult_le_0_compat; [|apply Qlt_le_weak, pow2_pos].
  change 0 with (inject_Z 0). rewrite <- Zle_Qle.
  apply rhe_ge_int. apply Qlt_le_weak, scaled_pos, Hx.
Qed.

Lemma round_pos_mono (x y : Q) : 0 < x -> x <= y -> round_pos x <= round_pos y.
Proof.
  intros Hx Hxy.
  assert (Hy : 0 < y) by (eapply Qlt_le_trans; eassumption).
  pose proof (f64_exp_mono x y Hx Hxy) as He.
  rewrite !round_pos_eq.
  destruct (Z.eq_dec (f64_exp x) (f64_exp y)) as [E|E].
  - rewrite E. apply Qmult_le_r; [apply pow2_pos|]. rewrite <- Zle_Qle.
    apply rhe_mono. rewrite <- E. apply Qmult_le_r; [apply Qinv_lt_0_compat, pow2_pos|]. exact Hxy.
  - set (ex := f64_exp x) in *. set (ey := f64_exp y) in *.
    assert (Hey : (-1074 < ey)%Z) by (unfold ex, ey, f64_exp in *; lia).
    apply Qle_trans with (pow2 (ex + 53)).
    + rewrite (Z.add_comm ex), pow2_add, (pow2_Z 53) by lia.
      apply Qmult_le_r; [apply pow2_pos|]. rewrite <- Zle_Qle.
      apply rhe_le_int. apply Qlt_le_weak, scaled_lt, Hx.
    + apply Qle_trans with (pow2 (ey + 52)); [apply pow2_le; lia|].
      rewrite (Z.add_comm ey), pow2_add, (pow2_Z 52) by lia.
      apply Qmult_le_r; [apply pow2_pos|]. rewrite <- Zle_Qle.
      apply rhe_ge_int. apply scaled_ge; assumption.
Qed.

Lemma round_pos_exact (x : Q) (k : Z) :
  0 < x -> x / pow2 (f64_exp x) == inject_Z k -> round_pos x == x.
Proof.
  intros Hx E. rewrite round_pos_eq. rewrite (rhe_proper _ _ E), rhe_int.
  rewrite <- E. field. apply Qnot_eq_sym, Qlt_not_eq, pow2_pos.
Qed.

(** Rounding any rational. *)

Lemma round_Q_pos (x : Q) : 0 < x -> round_Q x == round_pos x.
Proof.
  intro Hx. unfold round_Q. rewrite (proj1 (Qgt_alt x 0) Hx). apply Qred_correct.
Qed.

Lemma round_Q_neg (x : Q) : x < 0 -> round_Q x == - round_pos (- x).
Proof.
  intro Hx. unfold round_Q. rewrite (proj1 (Qlt_alt x 0) Hx). apply Qred_correct.
Qed.

Lemma round_Q_zero (x : Q) : x == 0 -> round_Q x = 0.
Proof. intro Hx. unfold round_Q. now rewrite (proj1 (Qeq_alt x 0) Hx). Qed.

Lemma round_Q_mono (x y : Q) : x <= y -> round_Q x <= round_Q y.
Proof.
  intro Hxy.
  destruct (Qlt_le_dec 0 x) as [Hx|Hx].
  - rewrite !round_Q_pos by lra. now apply round_pos_mono.
  - destruct (Qlt_le_dec 0 y) as [Hy|Hy].
    + rewrite (round_Q_pos y Hy).
      destruct (Qlt_le_dec x 0) as [Hx'|Hx'].
      * rewrite (round_Q_neg x Hx'). pose proof (round_pos_nonneg (- x) ltac:(lra)).
        pose proof (round_pos_nonneg y Hy). lra.
      * rewrite round_Q_zero by lra. now apply round_pos_nonneg.
    + destruct (Qlt_le_dec y 0) as [Hy'|Hy'].
      * rewrite (round_Q_neg x ltac:(lra)), (round_Q_neg y Hy').
        apply Qopp_le_compat. apply round_pos_mono; lra.
      * rewrite (round_Q_zero y) by lra.
        destruct (Qlt_le_dec x 0) as [Hx'|Hx'].
        -- rewrite (round_Q_neg x Hx'). pose proof (round_pos_nonneg (- x) ltac:(lra)). lra.
        -- rewrite round_Q_zero by lra. apply Qle_refl.
Qed.

Lemma round_Q_proper (x y : Q) : x == y -> round_Q x == round_Q y.
Proof.
  intro E. apply Qle_antisym; apply round_Q_mono; rewrite E; apply Qle_refl.
Qed.

Lemma inject_Z_pow2 (n : Z) : (0 <= n)%Z -> inject_Z (2 ^ n) == pow2 n.
Proof. intro H. symmetry. now apply pow2_Z. Qed.

Lemma pow2_opp_mul (e : Z) : pow2 e * pow2 (- e) == 1.
Proof. rewrite <- pow2_add. now replace (e + - e)%Z with 0%Z by lia. Qed.

Lemma round_Q_int (n : Z) : (0 <= n <= 2 ^ 53)%Z -> round_Q (inject_Z n) == inject_Z n.
Proof.
  intro Hn. destruct (Z.eq_dec n 0) as [->|Hn0]; [reflexivity|].
  assert (Hp : 0 < inject_Z n) by (change 0 with (inject_Z 0); rewrite <- Zlt_Qlt; lia).
  rewrite (round_Q_pos _ Hp).
  destruct (Qlog2_floor_spec _ Hp) as [H1 H2].
  assert (HL0 : (0 <= Qlog2_floor (inject_Z n))%Z).
  { apply Z.lt_succ_r. apply pow2_lt_inv. change (pow2 0) with 1.
    apply Qle_lt_trans with (inject_Z n); [|exact H2].
    change 1 with (inject_Z 1). rewrite <- Zle_Qle. lia. }
  assert (HL1 : (Qlog2_floor (inject_Z n) <= 53)%Z).
  { apply Z.lt_succ_r. apply pow2_lt_inv. eapply Qle_lt_trans; [exact H1|].
    rewrite <- inject_Z_pow2 by lia. rewrite <- Zlt_Qlt.
    apply Z.le_lt_trans with (2 ^ 53)%Z; [lia|]. apply Z.pow_lt_mono_r; lia. }
  assert (He : f64_exp (inject_Z n) = (Qlog2_floor (inject_Z n) - 52)%Z) by (unfold f64_exp; lia).
  set (L := Qlog2_floor (inject_Z n)) in *.
  destruct (Z.eq_dec L 53) as [E53|E53].
  - assert (Hn53 : n = (2 ^ 53)%Z).
    { rewrite E53 in H1. rewrite <- inject_Z_pow2 in H1 by lia. rewrite <- Zle_Qle in H1. lia. }
    apply (round_pos_exact _ (2 ^ 52)); [exact Hp|].
    rewrite He, E53, Hn53. change (53 - 52)%Z with 1%Z.
    rewrite !inject_Z_pow2 by lia. change (pow2 53) with (pow2 (52 + 1)). rewrite pow2_add.
    field. apply Qnot_eq_sym, Qlt_not_eq, pow2_pos.
  - apply (round_pos_exact _ (n * 2 ^ (52 - L))); [exact Hp|].
    rewrite He, inject_Z_mult, inject_Z_pow2 by lia.
    rewrite <- (Qmult_1_r (inject_Z n)) at 1. rewrite <- (pow2_opp_mul (L - 52)).
    replace (- (L - 52))%Z with (52 - L)%Z by lia.
    field. apply Qnot_eq_sym, Qlt_not_eq, pow2_pos.
Qed.

Lemma round_Q_eq (x y : Q) : x == y -> round_Q x = round_Q y.
Proof.
  intro E. unfold round_Q.
  rewrite (Qcompare_comp x y E 0 0 (Qeq_refl 0)).
  destruct (Qcompare_spec y 0) as [H|H|H].
  - reflexivity.
  - apply Qred_complete. apply Qopp_comp. apply round_pos_proper; [lra|]. now rewrite E.
  - apply Qred_complete. apply round_pos_proper; [lra|exact E].
Qed.

Lemma f64_of_Q_eq (x y : Q) : x == y -> f64_of_Q x = f64_of_Q y.
Proof. intro E. unfold f64_of_Q. now rewrite (round_Q_eq x y E). Qed.

Lemma f64_of_Q_fin (x : Q) :
  - pow2 1024 < round_Q x -> round_Q x < pow2 1024 -> f64_of_Q x = Fin (round_Q x).
Proof.
  intros H1 H2. unfold f64_of_Q.
  destruct (Qle_bool (pow2 1024) (round_Q x)) eqn:E1.
  { apply Qle_bool_iff in E1. exfalso. lra. }
  destruct (Qle_bool (round_Q x) (- pow2 1024)) eqn:E2.
  { apply Qle_bool_iff in E2. exfalso. lra. }
  reflexivity.
Qed.

Lemma pow2_53_lt_1024 : inject_Z (2 ^ 53) < pow2 1024.
Proof. rewrite <- pow2_Z by lia. apply pow2_lt. lia. Qed.

Lemma f64_of_Q_int (x : Q) (n : Z) :
  (0 <= n <= 2 ^ 53)%Z -> x == inject_Z n -> f64_is (f64_of_Q x) (inject_Z n).
Proof.
  intros Hn E.
  assert (R : round_Q x == inject_Z n) by (rewrite (round_Q_eq x (inject_Z n) E); now apply round_Q_int).
  assert (B : inject_Z n <= inject_Z (2 ^ 53)) by (rewrite <- Zle_Qle; lia).
  assert (B0 : 0 <= inject_Z n) by (change 0 with (inject_Z 0); rewrite <- Zle_Qle; lia).
  pose proof pow2_53_lt_1024. pose proof (pow2_pos 1024).
  rewrite f64_of_Q_fin by (rewrite R; lra). exact R.
Qed.





(* ------------------------------------------------------------------ *)
(** ** The segment loop refines the planner of the specification *)

Lemma planned_segments_app (a b : list Filter) :
  planned_segments (a ++ b) = planned_segments a ++ planned_segments b.
Proof.
  induction a as [|f a IH]; simpl; [reflexivity|].
  destruct (node_segment f); rewrite IH; reflexivity.
Qed.

Lemma timeline_loop_segments (w h : Z) (l : list VideoClip) :
  forall i st,
    planned_segments (filter_parts (timeline_loop w h i l st))
    = planned_segments (filter_parts st) ++ spec_plan (current_time st) i l.
Proof.
  induction l as [|c l IH]; intros i st; simpl.
  - now rewrite app_nil_r.
  - rewrite IH. unfold loop_body; simpl.
    destruct (f64_gt (start_time c) (current_time st)); simpl;
      rewrite !planned_segments_app, <- !app_assoc; reflexivity.
Qed.

Lemma planned_segments_concat (segs : list (Label * Label)) :
  planned_segments [concat_filter segs] = [].
Proof.
  destruct segs as [|[v a] segs]; [reflexivity|].
  destruct v; reflexivity.
Qed.

Lemma build_filter_complex_segments (w h : Z) (l : list VideoClip) :
  planned_segments (build_filter_complex w h l) = spec_plan (Fin 0) 0 l.
Proof.
  unfold build_filter_complex.
  rewrite planned_segments_app, timeline_loop_segments, planned_segments_concat.
  simpl. rewrite app_nil_r; reflexivity.
Qed.

(** Once the clips are sorted, the filter graph handed to FFmpeg is the
    one built from the sorted list. *)
Lemma export_timeline_run (p : ExportParams) (args : list Arg) :
  export_timeline p = RunFfmpeg args ->
  exists sorted_clips,
    clips p <> [] /\ sort_by_start (clips p) = Ok sorted_clips /\
    args = build_args p sorted_clips.
Proof.
  unfold export_timeline. destruct (clips p) as [|c cs] eqn:E; [discriminate|].
  destruct (sort_by_start (c :: cs)) as [s|]; intro H; [|discriminate].
  injection H as <-. exists s. split; [discriminate|]. split; reflexivity.
Qed.

Lemma filter_complex_of_inputs (l : list VideoClip) (fs : list Filter) (rest : list Arg) :
  filter_complex_of (flat_map (fun c => [AStr "-i"; AStr (file_path c)]) l
                     ++ AStr "-filter_complex" :: AFilterComplex fs :: rest) = fs.
Proof.
  induction l as [|c l IH]; simpl; [reflexivity|exact IH].
Qed.

Lemma filter_complex_of_build_args (p : ExportParams) (l : list VideoClip) :
  filter_complex_of (build_args p l)
  = build_filter_complex (fst (resolve_resolution (resolution p)))
                         (snd (resolve_resolution (resolution p))) l.
Proof.
  unfold build_args. destruct (resolve_resolution (resolution p)) as [w h]; simpl.
  apply filter_complex_of_inputs.
Qed.

(** C1: for every clip list given to the loop (in [export_timeline],
    the sorted clips), the segments of the emitted graph are the
    planner's: a cursor from 0, a gap of [start_time - cursor] exactly
    when [start_time > cursor], then the clip's trim window, then
    [cursor := end_time], and no trailing gap.  Clips A = [0,2) and
    B = [5,7) give [ClipSegment A; GapSegment 3; ClipSegment B]. *)
Theorem planner_walks_cursor :
  (forall (w h : Z) (sorted_clips : list VideoClip),
      planned_segments (build_filter_complex w h sorted_clips)
      = spec_plan (Fin 0) 0 sorted_clips)
  /\ outcome_segments (export_timeline (params_of [clipA; clipB]))
     = Some [ClipSegment 0 (Fin 0) (Fin 2); GapSegment (Fin 3);
             ClipSegment 1 (Fin 0) (Fin 2)].
Proof.
  split.
  - exact build_filter_complex_segments.
  - reflexivity.
Qed.

(* ------------------------------------------------------------------ *)
(** ** The sort: when it panics, and what it returns *)

Lemma partial_cmp_None (a b : f64) :
  f64_partial_cmp a b = None <-> a = NaN \/ b = NaN.
Proof.
  destruct a, b; simpl; split; intro H; try discriminate;
    try (destruct H as [H|H]; discriminate); auto.
Qed.

Lemma cmp_start_Panic (a b : VideoClip) :
  cmp_start a b = Panic <-> start_time a = NaN \/ start_time b = NaN.
Proof.
  unfold cmp_start. rewrite <- partial_cmp_None.
  destruct (f64_partial_cmp (start_time a) (start_time b)); split; congruence.
Qed.

Lemma insert_head_perm (x : VideoClip) (s : list VideoClip) :
  forall r, insert_head x s = Ok r -> Permutation (x :: s) r.
Proof.
  induction s as [|y s IH]; simpl; intros r H.
  - injection H as <-. reflexivity.
  - destruct (cmp_start y x) as [[]|]; simpl in H; try discriminate;
      try (injection H as <-; reflexivity).
    destruct (insert_head x s) as [r'|] eqn:E; simpl in H; [|discriminate].
    injection H as <-. rewrite perm_swap. constructor. apply IH; reflexivity.
Qed.

Lemma sort_by_start_perm (l : list VideoClip) :
  forall s, sort_by_start l = Ok s -> Permutation l s.
Proof.
  induction l as [|x l IH]; simpl; intros s H.
  - injection H as <-. constructor.
  - destruct (sort_by_start l) as [s'|] eqn:E; simpl in H; [|discriminate].
    apply insert_head_perm in H. rewrite <- H. constructor. apply IH; reflexivity.
Qed.

Lemma insert_head_ok (x : VideoClip) (s : list VideoClip) :
  ~ nan_start x -> Forall (fun c => ~ nan_start c) s ->
  exists r, insert_head x s = Ok r.
Proof.
  intros Hx Hs. induction Hs as [|y s Hy Hs IH]; simpl.
  - eauto.
  - destruct (cmp_start y x) as [o|] eqn:E.
    + simpl. destruct o; eauto.
      destruct IH as [r ->]. simpl. eauto.
    + apply cmp_start_Panic in E. unfold nan_start in *. tauto.
Qed.

Lemma sort_by_start_ok (l : list VideoClip) :
  Forall (fun c => ~ nan_start c) l -> exists s, sort_by_start l = Ok s.
Proof.
  intro H. induction H as [|x l Hx Hl IH]; simpl; [eauto|].
  destruct IH as [s Hs]. rewrite Hs. simpl.
  apply insert_head_ok; [exact Hx|].
  apply sort_by_start_perm in Hs.
  eapply Permutation_Forall; eassumption.
Qed.

Lemma insert_head_Panic (x : VideoClip) (s : list VideoClip) :
  insert_head x s = Panic -> s <> [] /\ (nan_start x \/ Exists nan_start s).
Proof.
  induction s as [|y s IH]; simpl; intro H; [discriminate|].
  split; [discriminate|].
  destruct (cmp_start y x) as [o|] eqn:E.
  - simpl in H. destruct o; try discriminate.
    destruct (insert_head x s) eqn:E2; simpl in H; [discriminate|].
    destruct (IH eq_refl) as [_ [Hx|Hs]]; auto.
  - apply cmp_start_Panic in E. unfold nan_start. destruct E; auto.
Qed.

Lemma sort_by_start_Panic (l : list VideoClip) :
  sort_by_start l = Panic -> (2 <= List.length l)%nat /\ Exists nan_start l.
Proof.
  induction l as [|x l IH]; simpl; intro H; [discriminate|].
  destruct (sort_by_start l) as [s|] eqn:E; simpl in H.
  - apply insert_head_Panic in H. destruct H as [Hne Hn].
    apply sort_by_start_perm in E.
    destruct l as [|y l]; [apply Permutation_nil in E; contradiction|].
    split; [simpl; lia|].
    destruct Hn as [Hn|Hn]; [now constructor|].
    apply Exists_cons_tl. eapply Permutation_Exists; [symmetry; exact E|exact Hn].
  - destruct (IH eq_refl) as [Hl Hn]. split; [lia|]. now apply Exists_cons_tl.
Qed.

Lemma sort_by_start_nan (l : list VideoClip) :
  (2 <= List.length l)%nat -> Exists nan_start l -> sort_by_start l = Panic.
Proof.
  induction l as [|x l IH]; simpl; intros Hlen Hn; [lia|].
  destruct (sort_by_start l) as [s|] eqn:E; simpl; [|reflexivity].
  pose proof (sort_by_start_perm _ _ E) as Hp.
  destruct s as [|y s]; [apply Permutation_sym, Permutation_nil in Hp; subst; simpl in Hlen; lia|].
  simpl. inversion Hn as [? ? Hx|? ? Hl]; subst.
  - assert (Hc : cmp_start y x = Panic) by (apply cmp_start_Panic; auto).
    now rewrite Hc.
  - destruct l as [|z [|z' l]].
    + inversion Hl.
    + apply Permutation_length_1_inv in Hp. injection Hp as -> ->.
      assert (Hc : cmp_start z x = Panic).
      { apply cmp_start_Panic. left. now inversion Hl. }
      now rewrite Hc.
    + assert (Hlen' : (2 <= List.length (z :: z' :: l))%nat) by (simpl; lia).
      discriminate (IH Hlen' Hl).
Qed.

(* ------------------------------------------------------------------ *)
(** ** Claims: rejection and validation *)

(** C9: the empty clip list is rejected with "No clips to export" before
    any plan is built or FFmpeg is run. *)
Theorem empty_timeline_rejected (out res : string) :
  export_timeline {| clips := []; output_path := out; resolution := res |}
  = Rejected "No clips to export".
Proof. reflexivity. Qed.

(** C10: resolution resolution is a total function of the request:
    "720p" gives 1280x720, "1080p" gives 1920x1080, anything else 1920x1080. *)
Theorem resolution_total :
  resolve_resolution "720p" = (1280, 720)%Z
  /\ resolve_resolution "1080p" = (1920, 1080)%Z
  /\ (forall r : string, r = "720p"%string \/ resolve_resolution r = (1920, 1080)%Z).
Proof.
  split; [reflexivity|]. split; [reflexivity|].
  intro r. unfold resolve_resolution.
  destruct (String.eqb r "720p") eqn:E.
  - left. now apply String.eqb_eq.
  - right. now destruct (String.eqb r "1080p").
Qed.

(** C3 (as stated, refuted): overlapping clips A = [0,5), B = [3,7) are
    not rejected but planned as two clip segments without a gap, and a
    clip with a negative start_time and trim_out < trim_in is planned too. *)
Lemma overlap_not_rejected :
  outcome_segments (export_timeline (params_of [clipA05; clipB37]))
  = Some [ClipSegment 0 (Fin 0) (Fin 5); ClipSegment 1 (Fin 0) (Fin 4)]
  /\ outcome_segments (export_timeline (params_of [clip_bad]))
     = Some [ClipSegment 0 (Fin 4) (Fin (-3))].
Proof. split; reflexivity. Qed.

(** C3 (amended): [export_timeline] rejects only the empty list.  Every
    non-empty clip list with comparable (non-NaN) start times reaches the
    FFmpeg invocation, with the planner's segments for the sorted clips,
    whatever the clip invariants or overlaps. *)
Theorem no_validation_beyond_empty (p : ExportParams) :
  clips p <> [] ->
  Forall (fun c => ~ nan_start c) (clips p) ->
  exists sorted_clips args,
    sort_by_start (clips p) = Ok sorted_clips
    /\ export_timeline p = RunFfmpeg args
    /\ planned_segments (filter_complex_of args) = spec_plan (Fin 0) 0 sorted_clips.
Proof.
  intros Hne Hok.
  destruct (sort_by_start_ok _ Hok) as [s Hs].
  exists s, (build_args p s). split; [exact Hs|]. split.
  - unfold export_timeline. destruct (clips p); [contradiction|]. now rewrite Hs.
  - rewrite filter_complex_of_build_args. apply build_filter_complex_segments.
Qed.

Lemma no_validation_beyond_empty_witness :
  exists sorted_clips args,
    sort_by_start [clipA05; clipB37] = Ok sorted_clips
    /\ export_timeline (params_of [clipA05; clipB37]) = RunFfmpeg args
    /\ planned_segments (filter_complex_of args) = spec_plan (Fin 0) 0 sorted_clips.
Proof.
  apply (no_validation_beyond_empty (params_of [clipA05; clipB37])).
  - discriminate.
  - repeat constructor; unfold nan_start; simpl; discriminate.
Defined.

(** C4 (as stated, refuted): a lone clip with a NaN start_time is not
    rejected but handed to FFmpeg, and a NaN start_time next to another
    clip makes the sort panic. *)
Lemma nan_start_not_rejected :
  (exists args, export_timeline (params_of [clip_nan]) = RunFfmpeg args)
  /\ (exists args, export_timeline (params_of [clip_inf; clipA]) = RunFfmpeg args)
  /\ export_timeline (params_of [clipA; clip_nan]) = Panicked.
Proof.
  split; [eexists; reflexivity|]. split; [eexists; reflexivity|]. reflexivity.
Qed.

(** C4 (amended): no finiteness check is made.  On a non-empty list,
    [export_timeline] panics exactly when there are two or more clips and
    one start_time is NaN (the comparator's [unwrap]); otherwise it runs
    FFmpeg, also for infinite start times or a lone NaN clip. *)
Theorem nan_start_panics_or_runs (p : ExportParams) :
  clips p <> [] ->
  (export_timeline p = Panicked
   <-> (2 <= List.length (clips p))%nat /\ Exists nan_start (clips p))
  /\ (export_timeline p <> Panicked -> exists args, export_timeline p = RunFfmpeg args).
Proof.
  intro Hne. unfold export_timeline.
  destruct (clips p) as [|c cs]; [contradiction|].
  destruct (sort_by_start (c :: cs)) as [s|] eqn:S.
  - split; [split|].
    + discriminate.
    + intros [Hl Hn]. rewrite (sort_by_start_nan _ Hl Hn) in S. discriminate.
    + intros _. eauto.
  - split; [split|].
    + intros _. now apply sort_by_start_Panic.
    + reflexivity.
    + intro H. contradiction.
Qed.

Lemma nan_start_panics_or_runs_witness :
  (export_timeline (params_of [clipA; clip_nan]) = Panicked
   <-> (2 <= List.length [clipA; clip_nan])%nat /\ Exists nan_start [clipA; clip_nan])
  /\ (export_timeline (params_of [clipA; clip_nan]) <> Panicked ->
      exists args, export_timeline (params_of [clipA; clip_nan]) = RunFfmpeg args).
Proof.
  apply (nan_start_panics_or_runs (params_of [clipA; clip_nan])). discriminate.
Defined.

(* ------------------------------------------------------------------ *)
(** ** Finite values and the maximum end time *)

(** A sum of whole numbers in [0, 2^53] is exact. *)
Lemma f64_add_int (a b : f64) (x y : Z) :
  f64_is a (inject_Z x) -> f64_is b (inject_Z y) -> (0 <= x + y <= 2 ^ 53)%Z ->
  f64_is (f64_add a b) (inject_Z (x + y)).
Proof.
  destruct a, b; simpl; try tauto. intros Ha Hb Hn. apply f64_of_Q_int; [exact Hn|].
  rewrite Ha, Hb, inject_Z_plus. reflexivity.
Qed.

Lemma f64_max_fin (x y : Q) :
  f64_max (Fin x) (Fin y) = if Qlt_le_dec x y then Fin y else Fin x.
Proof.
  change (f64_max (Fin x) (Fin y)) with (match Qcompare x y with Lt => Fin y | _ => Fin x end).
  destruct (Qlt_le_dec x y) as [H|H]; destruct (Qcompare_spec x y) as [E|E|E];
    try reflexivity; exfalso.
  - rewrite E in H. exact (Qlt_irrefl y H).
  - exact (Qlt_irrefl x (Qlt_trans _ _ _ H E)).
  - exact (Qle_not_lt y x H E).
Qed.

Lemma f64_max_PInf_l (b : f64) : f64_max PInf b = PInf.
Proof. destruct b; reflexivity. Qed.

Lemma f64_max_PInf_r (a : f64) : f64_max a PInf = PInf.
Proof. destruct a; reflexivity. Qed.

Lemma fold_max_PInf (l : list VideoClip) :
  fold_left (fun acc c => f64_max acc (end_time c)) l PInf = PInf.
Proof. induction l as [|c l IH]; cbn [fold_left]; [reflexivity|]. now rewrite f64_max_PInf_l. Qed.

(** An end time [+inf] makes the maximum [+inf]. *)
Lemma fold_max_Exists_PInf (l : list VideoClip) :
  Exists (fun c => end_time c = PInf) l ->
  forall acc, fold_left (fun acc c => f64_max acc (end_time c)) l acc = PInf.
Proof.
  induction 1 as [c l Hc|c l _ IH]; intro acc; cbn [fold_left].
  - rewrite Hc, f64_max_PInf_r. apply fold_max_PInf.
  - apply IH.
Qed.

(** The fold of [f64::max] from [Fin q], [q >= 0], over end times other
    than [+inf]: NaN and [-inf] end times leave the accumulator as it is
    (they count as 0 in [end_q]). *)
Lemma fold_max_end (l : list VideoClip) :
  Forall (fun c => end_time c <> PInf) l ->
  forall q, 0 <= q -> exists m,
    fold_left (fun acc c => f64_max acc (end_time c)) l (Fin q) = Fin m
    /\ q <= m
    /\ Forall (fun c => end_q c <= m) l
    /\ (m == q \/ Exists (fun c => end_q c == m) l).
Proof.
  intro Hf. induction Hf as [|c l Hc Hf IH]; intros q Hq; cbn [fold_left].
  - exists q. repeat split; [apply Qle_refl | constructor | left; reflexivity].
  - destruct (end_time c) as [e| | |] eqn:He; [|contradiction| |].
    + rewrite f64_max_fin.
      assert (Hce : end_q c = e) by (unfold end_q; now rewrite He).
      destruct (Qlt_le_dec q e) as [Hqe|Hqe].
      * destruct (IH e ltac:(lra)) as (m & Hm & Hem & Hall & Hex).
        exists m. rewrite Hm. repeat split.
        -- apply Qle_trans with e; [now apply Qlt_le_weak|exact Hem].
        -- constructor; [now rewrite Hce|exact Hall].
        -- right. destruct Hex as [Hex|Hex].
           ++ constructor. now rewrite Hce, Hex.
           ++ now apply Exists_cons_tl.
      * destruct (IH q Hq) as (m & Hm & Hqm & Hall & Hex).
        exists m. rewrite Hm. repeat split.
        -- exact Hqm.
        -- constructor; [rewrite Hce; now apply Qle_trans with q|exact Hall].
        -- destruct Hex as [Hex|Hex]; [now left|right; now apply Exists_cons_tl].
    + assert (Hce : end_q c = 0) by (unfold end_q; now rewrite He).
      destruct (IH q Hq) as (m & Hm & Hqm & Hall & Hex).
      exists m. simpl. rewrite Hm. repeat split.
      * exact Hqm.
      * constructor; [rewrite Hce; lra|exact Hall].
      * destruct Hex as [Hex|Hex]; [now left|right; now apply Exists_cons_tl].
    + assert (Hce : end_q c = 0) by (unfold end_q; now rewrite He).
      destruct (IH q Hq) as (m & Hm & Hqm & Hall & Hex).
      exists m. simpl. rewrite Hm. repeat split.
      * exact Hqm.
      * constructor; [rewrite Hce; lra|exact Hall].
      * destruct Hex as [Hex|Hex]; [now left|right; now apply Exists_cons_tl].
Qed.

Lemma max_end_time_spec (l : list VideoClip) :
  Forall (fun c => end_time c <> PInf) l ->
  exists m, max_end_time l = Fin m /\ is_max_end l m.
Proof.
  intro Hf. destruct (fold_max_end l Hf 0 (Qle_refl 0)) as (m & Hm & H0 & Hall & Hex).
  exists m. split; [exact Hm|]. repeat split; assumption.
Qed.

Lemma is_max_end_perm (l l' : list VideoClip) (m : Q) :
  Permutation l l' -> is_max_end l m -> is_max_end l' m.
Proof.
  intros Hp (H0 & Hall & Hex). repeat split.
  - exact H0.
  - eapply Permutation_Forall; eassumption.
  - destruct Hex as [Hex|Hex]; [now left|right].
    eapply Permutation_Exists; eassumption.
Qed.

Lemma duration_limit_inputs (x : string) (l : list VideoClip) (rest : list Arg) :
  duration_limit (AStr x :: flat_map (fun c => [AStr "-i"; AStr (file_path c)]) l
                  ++ AStr "-filter_complex" :: rest)
  = duration_limit (AStr "-filter_complex" :: rest).
Proof.
  revert x. induction l as [|c l IH]; intro x; simpl; [reflexivity|].
  apply IH.
Qed.

Lemma duration_limit_build_args (p : ExportParams) (l : list VideoClip) :
  duration_limit (build_args p l) = Some (total_duration l).
Proof.
  unfold build_args. destruct (resolve_resolution (resolution p)) as [w h].
  simpl app. rewrite duration_limit_inputs. reflexivity.
Qed.

Lemma f64_0_1_val : f64_of_Q (1 # 10) = Fin (3602879701896397 # 36028797018963968).
Proof. vm_compute. reflexivity. Qed.

Lemma end_time_PInf_dec (c : VideoClip) : {end_time c = PInf} + {end_time c <> PInf}.
Proof. destruct (end_time c); [right|left|right|right]; congruence. Qed.

(** C8 (as stated, refuted): for the single clip placed at [-3,-1) the
    [-t] value is 0.1, not max(end_time) + 0.1 = -0.9: the fold starts at 0.0. *)
Lemma duration_limit_floor_zero :
  (exists args, export_timeline (params_of [clip_neg]) = RunFfmpeg args
                /\ duration_limit args = Some (f64_of_Q (1 # 10)))
  /\ f64_of_Q (1 # 10) <> f64_add (end_time clip_neg) (f64_of_Q (1 # 10)).
Proof.
  split.
  - eexists. split; [reflexivity|]. vm_compute. reflexivity.
  - vm_compute. discriminate.
Qed.

(** C8 (amended): the [-t] value passed to FFmpeg is the [f64] sum
    [M + 0.1], where [M] is [+inf] when some end_time is [+inf] and
    otherwise the maximum [m] of 0 and the finite end times ([f64::max]
    from 0.0 skips NaN and [-inf] end times, which [end_q] reads as 0). *)
Theorem duration_limit_max_end (p : ExportParams) (args : list Arg) :
  export_timeline p = RunFfmpeg args ->
  (Exists (fun c => end_time c = PInf) (clips p) /\ duration_limit args = Some PInf)
  \/ (Forall (fun c => end_time c <> PInf) (clips p)
      /\ exists m, is_max_end (clips p) m
                   /\ duration_limit args = Some (f64_add (Fin m) (f64_of_Q (1 # 10)))).
Proof.
  intro Hrun.
  destruct (export_timeline_run p args Hrun) as (s & _ & Hs & ->).
  pose proof (sort_by_start_perm _ _ Hs) as Hp.
  rewrite duration_limit_build_args. unfold total_duration, max_end_time.
  destruct (Exists_dec _ s end_time_PInf_dec) as [Hex|Hnex].
  - left. split; [eapply Permutation_Exists; [symmetry; exact Hp|exact Hex]|].
    rewrite (fold_max_Exists_PInf s Hex), f64_0_1_val. reflexivity.
  - right. apply Forall_Exists_neg in Hnex.
    destruct (max_end_time_spec s Hnex) as (m & Hm & Hmax).
    split; [eapply Permutation_Forall; [symmetry; exact Hp|exact Hnex]|].
    exists m. split.
    + eapply is_max_end_perm; [symmetry; exact Hp|exact Hmax].
    + unfold max_end_time in Hm. now rewrite Hm.
Qed.

Lemma duration_limit_max_end_witness :
  (Exists (fun c => end_time c = PInf) [clipB; clipA]
   /\ duration_limit (build_args (params_of [clipB; clipA]) [clipA; clipB]) = Some PInf)
  \/ (Forall (fun c => end_time c <> PInf) [clipB; clipA]
      /\ exists m, is_max_end [clipB; clipA] m
                   /\ duration_limit (build_args (params_of [clipB; clipA]) [clipA; clipB])
                      = Some (f64_add (Fin m) (f64_of_Q (1 # 10)))).
Proof.
  apply (duration_limit_max_end (params_of [clipB; clipA])). reflexivity.
Defined.

(* ------------------------------------------------------------------ *)
(** ** The concatenation node *)

Lemma loop_body_inv (w h : Z) (i : nat) (c : VideoClip) (st : LoopState) :
  loop_inv st -> loop_inv (loop_body w h i c st).
Proof.
  intros (Hv & Ha & Hn & Hc). unfold loop_body.
  destruct (f64_gt (start_time c) (current_time st)); unfold loop_inv; simpl;
    unfold video_outputs, audio_outputs in *;
    rewrite ?map_app, ?flat_map_app, ?planned_segments_app, ?length_app, ?Hv, ?Ha, ?Hn;
    simpl; rewrite ?Forall_app.
  all: repeat split; try reflexivity; try exact Hc; repeat constructor.
Qed.

Lemma timeline_loop_inv (w h : Z) (l : list VideoClip) :
  forall i st, loop_inv st -> loop_inv (timeline_loop w h i l st).
Proof.
  induction l as [|c l IH]; intros i st H; simpl; [exact H|].
  apply IH, loop_body_inv, H.
Qed.

Lemma initial_state_inv (w h : Z) (l : list VideoClip) : loop_inv (initial_state w h l).
Proof.
  unfold loop_inv, initial_state; simpl. repeat split; repeat constructor.
Qed.

(** C7: the emitted graph ends in exactly one concatenation node,
    [concat=n=N:v=1:a=1] with N the number of segments; its inputs are
    the (video, audio) outputs of the segments' sub-chains, pairwise and
    in segment order; no other node concatenates. *)
Theorem single_av_concat (p : ExportParams) (args : list Arg) :
  export_timeline p = RunFfmpeg args ->
  exists body segs,
    filter_complex_of args
    = body ++ [Node (flat_map (fun '(v, a) => [v; a]) segs)
                    [Concat (List.length segs) 1 1] [LOutV; LOutA]]
    /\ Forall (fun f => no_concat f = true) body
    /\ map fst segs = video_outputs body
    /\ map snd segs = audio_outputs body
    /\ List.length segs = List.length (planned_segments body).
Proof.
  intro Hrun.
  destruct (export_timeline_run p args Hrun) as (s & _ & _ & ->).
  rewrite filter_complex_of_build_args. unfold build_filter_complex.
  set (w := fst (resolve_resolution (resolution p))).
  set (h := snd (resolve_resolution (resolution p))).
  pose proof (timeline_loop_inv w h s 0 (initial_state w h s) (initial_state_inv w h s))
    as (Hv & Ha & Hn & Hc).
  eexists _, _. split; [reflexivity|].
  repeat split; assumption.
Qed.

Lemma single_av_concat_witness :
  exists body segs,
    filter_complex_of (build_args (params_of [clipA; clipB]) [clipA; clipB])
    = body ++ [Node (flat_map (fun '(v, a) => [v; a]) segs)
                    [Concat (List.length segs) 1 1] [LOutV; LOutA]]
    /\ Forall (fun f => no_concat f = true) body
    /\ map fst segs = video_outputs body
    /\ map snd segs = audio_outputs body
    /\ List.length segs = List.length (planned_segments body).
Proof.
  apply (single_av_concat (params_of [clipA; clipB])). reflexivity.
Defined.

(* ------------------------------------------------------------------ *)
(** ** Duration conservation *)

Lemma f64_is_compat (a : f64) (x y : Q) : f64_is a x -> x == y -> f64_is a y.
Proof. destruct a; simpl; try tauto. intros H1 H2. now rewrite H1. Qed.

Lemma f64_gt_fin (x y : Q) :
  if f64_gt (Fin x) (Fin y) then y < x else x <= y.
Proof.
  unfold f64_gt; simpl.
  destruct (Qcompare_spec x y) as [E|E|E].
  - rewrite E. apply Qle_refl.
  - now apply Qlt_le_weak.
  - exact E.
Qed.

Lemma valid_clip_fin (c : VideoClip) :
  valid_clip c ->
  exists s e ti to, start_time c = Fin s /\ end_time c = Fin e /\ trim_in c = Fin ti
    /\ trim_out c = Fin to /\ 0 <= s /\ s <= e /\ 0 <= ti /\ ti <= to /\ to - ti == e - s.
Proof.
  unfold valid_clip.
  destruct (start_time c), (end_time c), (trim_in c), (trim_out c); try tauto.
  intro H. do 4 eexists. repeat split; try reflexivity; apply H.
Qed.

Lemma Fin_inj (x y : Q) : Fin x = Fin y -> x = y.
Proof. now intros [= ->]. Qed.

Lemma f64_is_int_opp (z : Z) : f64_is (f64_neg (Fin (inject_Z z))) (inject_Z (- z)).
Proof. simpl. rewrite inject_Z_opp. reflexivity. Qed.

(** The planner's durations for whole-second times: their [f64] sum is
    exact and equals the distance from the cursor to the last end. *)
Lemma spec_plan_sum_int (l : list VideoClip) :
  Forall valid_clip l -> Forall whole_times l -> non_overlapping l ->
  forall (cur : Z) i, (0 <= cur <= 2 ^ 53)%Z ->
  (match l with c :: _ => inject_Z cur <= start_q c | [] => True end) ->
  exists k, (0 <= k)%Z /\ (cur + k <= 2 ^ 53)%Z
    /\ inject_Z (cur + k) == last_end (inject_Z cur) l
    /\ f64_is (sum_durations (spec_plan (Fin (inject_Z cur)) i l)) (inject_Z k).
Proof.
  induction 1 as [|c l Hc Hl IH]; intros Hw Hno cur i Hcur Hfirst.
  - exists 0%Z. split; [lia|]. split; [lia|]. split.
    + unfold last_end; simpl. now rewrite Z.add_0_r.
    + simpl. reflexivity.
  - inversion Hw as [|? ? (Ws & We & Wti & Wto) Hw']; subst.
    destruct (valid_clip_fin c Hc) as (s & e & ti & to & Hs & He & Hti & Hto & H0 & Hse & Hti0 & Htito & Hd).
    destruct Ws as (Zs & ES & HS). destruct We as (Ze & EE & HE).
    destruct Wti as (Zti & ETI & HTI). destruct Wto as (Zto & ETO & HTO).
    rewrite Hs in ES. rewrite He in EE. rewrite Hti in ETI. rewrite Hto in ETO.
    apply Fin_inj in ES, EE, ETI, ETO. subst s e ti to.
    unfold start_q in Hfirst. rewrite Hs in Hfirst.
    rewrite <- Zle_Qle in Hfirst, Hse, Htito.
    assert (Hd' : (Zto - Zti = Ze - Zs)%Z).
    { unfold Qeq in Hd. simpl in Hd. lia. }
    assert (Hno' : non_overlapping l) by (destruct l as [|d l]; [exact I|exact (proj2 Hno)]).
    destruct (IH Hw' Hno' Ze (S i)) as (k' & Hk0 & Hk1 & Hk2 & Hk3).
    + lia.
    + destruct l as [|d l]; [exact I|].
      destruct Hno as [Hed _]. unfold end_q in Hed. rewrite He in Hed. exact Hed.
    + assert (Hlast : last_end (inject_Z cur) (c :: l) = last_end (inject_Z Ze) l).
      { unfold last_end; simpl. unfold end_q at 2. now rewrite He. }
      rewrite Hlast. cbn [spec_plan]. rewrite Hs, He, Hti, Hto.
      assert (Hdur : f64_is (f64_sub (Fin (inject_Z Zto)) (Fin (inject_Z Zti))) (inject_Z (Zto + - Zti)))
        by (apply f64_add_int; [simpl; reflexivity|apply f64_is_int_opp|lia]).
      pose proof (f64_gt_fin (inject_Z Zs) (inject_Z cur)) as Hg.
      destruct (f64_gt (Fin (inject_Z Zs)) (Fin (inject_Z cur))); cbn [app sum_durations fold_right].
      * rewrite <- Zlt_Qlt in Hg.
        assert (Hgap : f64_is (f64_sub (Fin (inject_Z Zs)) (Fin (inject_Z cur))) (inject_Z (Zs + - cur)))
          by (apply f64_add_int; [simpl; reflexivity|apply f64_is_int_opp|lia]).
        exists (Zs + - cur + (Zto + - Zti + k'))%Z. split; [lia|]. split; [lia|]. split.
        -- rewrite <- Hk2. replace (cur + (Zs + - cur + (Zto + - Zti + k')))%Z with (Ze + k')%Z by lia.
           reflexivity.
        -- apply f64_add_int; [exact Hgap| |lia].
           apply f64_add_int; [exact Hdur|exact Hk3|lia].
      * rewrite <- Zle_Qle in Hg.
        exists (Zto + - Zti + k')%Z. split; [lia|]. split; [lia|]. split.
        -- rewrite <- Hk2. replace (cur + (Zto + - Zti + k'))%Z with (Ze + k')%Z by lia.
           reflexivity.
        -- apply f64_add_int; [exact Hdur|exact Hk3|lia].
Qed.

Lemma timeline_loop_current_time (w h : Z) (l : list VideoClip) :
  forall i st,
    current_time (timeline_loop w h i l st) = fold_left (fun _ c => end_time c) l (current_time st).
Proof.
  induction l as [|c l IH]; intros i st; simpl; [reflexivity|].
  rewrite IH. reflexivity.
Qed.

Lemma fold_end_time_fin (l : list VideoClip) :
  Forall valid_clip l ->
  forall q, fold_left (fun _ c => end_time c) l (Fin q) = Fin (last_end q l).
Proof.
  induction 1 as [|c l Hc Hl IH]; intro q; [reflexivity|].
  destruct (valid_clip_fin c Hc) as (s & e & ti & to & Hs & He & _).
  assert (Hq : end_q c = e) by (unfold end_q; now rewrite He).
  change (last_end q (c :: l)) with (last_end (end_q c) l).
  cbn [fold_left]. rewrite He, IH, Hq. reflexivity.
Qed.

Lemma last_end_is_max (c : VideoClip) (l : list VideoClip) :
  Forall valid_clip (c :: l) -> non_overlapping (c :: l) ->
  forall q, is_max_end (c :: l) (last_end q (c :: l)).
Proof.
  revert c. induction l as [|d l IH]; intros c Hv Hno q.
  - unfold last_end; simpl.
    inversion Hv as [|? ? Hc _]; subst.
    destruct (valid_clip_fin c Hc) as (s & e & ti & to & Hs & He & _ & _ & H0 & Hse & _).
    assert (Hc' : end_q c == e) by (unfold end_q; now rewrite He).
    repeat split.
    + rewrite Hc'. apply Qle_trans with s; assumption.
    + constructor; [apply Qle_refl|constructor].
    + right. constructor. reflexivity.
  - inversion Hv as [|? ? Hc Hv']; subst.
    destruct Hno as [Hcd Hno].
    assert (Hlast : last_end q (c :: d :: l) = last_end q (d :: l)) by reflexivity.
    rewrite Hlast.
    destruct (IH d Hv' Hno q) as (H0 & Hall & Hex).
    repeat split.
    + exact H0.
    + constructor; [|exact Hall].
      inversion Hv' as [|? ? Hd _]; subst.
      destruct (valid_clip_fin d Hd) as (s & e & ti & to & Hs & He & _ & _ & _ & Hse & _).
      inversion Hall as [|? ? Hdl _]; subst.
      unfold start_q in Hcd. rewrite Hs in Hcd.
      unfold end_q at 1 in Hdl. rewrite He in Hdl.
      apply Qle_trans with s; [exact Hcd|]. apply Qle_trans with e; assumption.
    + destruct Hex as [Hex|Hex]; [now left|right; now apply Exists_cons_tl].
Qed.

(** C2 (as stated, refuted): the segment durations are [f64]
    differences and their sum an [f64] sum, each rounded.  For the valid,
    non-overlapping clips [0, 0.1) and [0.4, 1.2) (the second trimmed to
    [0, 1.2 - 0.4], which is exact), the gap [0.4 - 0.1] rounds to
    0.30000000000000004 and the durations sum to 1.2000000000000002,
    while the maximum end time is 1.2. *)
Lemma duration_sum_rounds :
  Forall valid_clip [clip_r1; clip_r2]
  /\ sort_by_start [clip_r1; clip_r2] = Ok [clip_r1; clip_r2]
  /\ non_overlapping [clip_r1; clip_r2]
  /\ end_time clip_r2 = Fin (5404319552844595 # 4503599627370496)
  /\ exists args, export_timeline (params_of [clip_r1; clip_r2]) = RunFfmpeg args
     /\ sum_durations (planned_segments (filter_complex_of args))
        = Fin (1351079888211149 # 1125899906842624)
     /\ forall total, is_max_end [clip_r1; clip_r2] total ->
        ~ f64_is (sum_durations (planned_segments (filter_complex_of args))) total.
Proof.
  assert (E1 : f64_0_1 = Fin (3602879701896397 # 36028797018963968)) by (vm_compute; reflexivity).
  assert (E4 : f64_0_4 = Fin (3602879701896397 # 9007199254740992)) by (vm_compute; reflexivity).
  assert (E12 : f64_1_2 = Fin (5404319552844595 # 4503599627370496)) by (vm_compute; reflexivity).
  assert (Ed : f64_sub f64_1_2 f64_0_4 = Fin (7205759403792793 # 9007199254740992))
    by (vm_compute; reflexivity).
  unfold clip_r1, clip_r2, mk_clip. rewrite Ed, E1, E4, E12.
  split; [|split; [|split; [|split]]].
  - repeat constructor; unfold valid_clip; simpl; repeat split;
      first [apply Qle_bool_imp_le | apply Qeq_bool_eq]; vm_compute; reflexivity.
  - vm_compute. reflexivity.
  - simpl. split; [|exact I]. apply Qle_bool_imp_le. vm_compute. reflexivity.
  - reflexivity.
  - eexists. split; [reflexivity|].
    match goal with |- ?a = ?b /\ _ => assert (Hsum : a = b) by (vm_compute; reflexivity) end.
    split; [exact Hsum|]. rewrite Hsum.
    intros total (H0 & Hall & Hex).
    assert (Ht : total == 5404319552844595 # 4503599627370496).
    { inversion Hall as [|? ? _ Hall']; subst. inversion Hall' as [|? ? H2 _]; subst.
      unfold end_q in H2; simpl in H2.
      destruct Hex as [Hex|Hex].
      - exfalso. rewrite Hex in H2. apply Qle_bool_iff in H2. vm_compute in H2. discriminate.
      - inversion Hex as [? ? H1|? ? Hex']; subst.
        + exfalso. unfold end_q in H1; simpl in H1. rewrite <- H1 in H2.
          apply Qle_bool_iff in H2. vm_compute in H2. discriminate.
        + inversion Hex' as [? ? H1|? ? Hex'']; [|inversion Hex''].
          unfold end_q in H1; simpl in H1. symmetry. exact H1. }
    cbn [f64_is]. intro H. rewrite Ht in H. apply Qeq_bool_iff in H. vm_compute in H. discriminate.
Qed.

(** C2 (amended): for a valid clip list (the clip invariants, the
    placement duration equal to the trimmed duration, and no overlap once
    sorted), the planner's final cursor is the maximum of 0 and the input
    clips' end times; when every time is a whole number of seconds in
    [0, 2^53], no rounding occurs and the [f64] sum of the planned
    segments' durations is that same total. *)
Theorem duration_conservation (p : ExportParams) (sorted_clips : list VideoClip) :
  clips p <> [] ->
  Forall valid_clip (clips p) ->
  sort_by_start (clips p) = Ok sorted_clips ->
  non_overlapping sorted_clips ->
  let '(w, h) := resolve_resolution (resolution p) in
  exists total,
    is_max_end (clips p) total
    /\ f64_is (current_time (timeline_loop w h 0 sorted_clips (initial_state w h sorted_clips))) total
    /\ (Forall whole_times (clips p) ->
        f64_is (sum_durations (planned_segments (build_filter_complex w h sorted_clips))) total).
Proof.
  intros Hne Hv Hs Hno.
  pose proof (sort_by_start_perm _ _ Hs) as Hp.
  assert (Hv' : Forall valid_clip sorted_clips) by (eapply Permutation_Forall; eassumption).
  destruct (resolve_resolution (resolution p)) as [w h].
  destruct sorted_clips as [|c l].
  { apply Permutation_sym, Permutation_nil in Hp. contradiction. }
  exists (last_end 0 (c :: l)). split; [|split].
  - eapply is_max_end_perm; [symmetry; exact Hp|].
    apply last_end_is_max; assumption.
  - rewrite timeline_loop_current_time. simpl current_time.
    rewrite fold_end_time_fin by exact Hv'. reflexivity.
  - intro Hw. assert (Hw' : Forall whole_times (c :: l)) by (eapply Permutation_Forall; eassumption).
    rewrite build_filter_complex_segments.
    destruct (spec_plan_sum_int (c :: l) Hv' Hw' Hno 0 0) as (k & _ & _ & Hk & Hsum).
    + lia.
    + inversion Hv' as [|? ? Hc _]; subst.
      destruct (valid_clip_fin c Hc) as (s & e & ti & to & Hs' & _ & _ & _ & H0 & _).
      unfold start_q. now rewrite Hs'.
    + eapply f64_is_compat; [exact Hsum|]. exact Hk.
Qed.

Lemma duration_conservation_witness :
  exists total,
    is_max_end [clipB; clipA] total
    /\ f64_is (current_time (timeline_loop 1920 1080 0 [clipA; clipB]
                               (initial_state 1920 1080 [clipA; clipB]))) total
    /\ (Forall whole_times [clipB; clipA] ->
        f64_is (sum_durations (planned_segments (build_filter_complex 1920 1080 [clipA; clipB]))) total).
Proof.
  apply (duration_conservation (params_of [clipB; clipA]) [clipA; clipB]).
  - discriminate.
  - repeat constructor; unfold valid_clip; simpl; repeat split; unfold Qle, Qeq; simpl; lia.
  - reflexivity.
  - simpl. repeat split; unfold Qle; simpl; lia.
Defined.

(* ------------------------------------------------------------------ *)
(** ** Order independence and stability of the sort *)

(** The rank is strictly increasing on the rationals and stays in (-1, 1). *)
Lemma Qdiv_lt_cross (x y a b : Q) : 0 < a -> 0 < b -> x * b < y * a -> x / a < y / b.
Proof.
  intros Ha Hb H. apply Qlt_shift_div_r; [exact Ha|].
  setoid_replace (y / b * a) with ((y * a) / b) by (field; apply Qnot_eq_sym, Qlt_not_eq, Hb).
  apply Qlt_shift_div_l; [exact Hb|exact H].
Qed.

Lemma Qabs_bounds (x : Q) : x <= Qabs x /\ - x <= Qabs x.
Proof. split; [apply Qle_Qabs|]. rewrite <- Qabs_opp. apply Qle_Qabs. Qed.

Lemma rank_bounds (x : Q) : -1 < x / (1 + Qabs x) /\ x / (1 + Qabs x) < 1.
Proof.
  destruct (Qabs_bounds x) as [H1 H2].
  split.
  - apply Qlt_shift_div_l; lra.
  - apply Qlt_shift_div_r; lra.
Qed.

Lemma rank_mono (x y : Q) : x < y -> x / (1 + Qabs x) < y / (1 + Qabs y).
Proof.
  intro Hxy. destruct (Qabs_bounds x) as [Ax Bx]. destruct (Qabs_bounds y) as [Ay By].
  apply Qdiv_lt_cross; [lra|lra|].
  destruct (Qlt_le_dec x 0) as [Hx|Hx]; destruct (Qlt_le_dec y 0) as [Hy|Hy].
  - rewrite (Qabs_neg x), (Qabs_neg y) by lra. nra.
  - rewrite (Qabs_neg x), (Qabs_pos y) by lra. nra.
  - exfalso. lra.
  - rewrite (Qabs_pos x), (Qabs_pos y) by lra. nra.
Qed.

Lemma rank_proper (x y : Q) : x == y -> x / (1 + Qabs x) == y / (1 + Qabs y).
Proof. intro E. now rewrite E. Qed.

(** On values other than NaN, [f64::partial_cmp] compares the ranks. *)
Lemma partial_cmp_rank (a b : f64) :
  a <> NaN -> b <> NaN -> f64_partial_cmp a b = Some (Qcompare (f64_rank a) (f64_rank b)).
Proof.
  intros Ha Hb.
  destruct a as [x| | |], b as [y| | |]; try congruence; cbn [f64_partial_cmp f64_rank];
    try (destruct (rank_bounds x) as [Bx1 Bx2]); try (destruct (rank_bounds y) as [By1 By2]);
    f_equal; symmetry;
    try first [reflexivity | apply Qlt_alt; assumption | apply Qgt_alt; assumption].
  destruct (Qcompare_spec x y) as [E|E|E].
  - apply Qeq_alt. now apply rank_proper.
  - apply Qlt_alt. now apply rank_mono.
  - apply Qgt_alt. now apply rank_mono.
Qed.

Lemma insertQ_perm (x : VideoClip) (s : list VideoClip) : Permutation (x :: s) (insertQ x s).
Proof.
  induction s as [|y s IH]; simpl; [reflexivity|].
  destruct (Qlt_le_dec (start_rank y) (start_rank x)); [|reflexivity].
  rewrite perm_swap. constructor. exact IH.
Qed.

Lemma sortQ_perm (l : list VideoClip) : Permutation l (sortQ l).
Proof.
  induction l as [|x l IH]; simpl; [constructor|].
  rewrite <- insertQ_perm. constructor. exact IH.
Qed.

Lemma insert_head_rank (x : VideoClip) (s : list VideoClip) :
  Forall (fun c => ~ nan_start c) (x :: s) -> insert_head x s = Ok (insertQ x s).
Proof.
  intro H. inversion H as [|? ? Hx Hs]; subst.
  induction Hs as [|y s Hy Hs IH]; simpl; [reflexivity|].
  unfold cmp_start. rewrite (partial_cmp_rank _ _ Hy Hx). cbn [bind].
  fold (start_rank y). fold (start_rank x).
  destruct (Qlt_le_dec (start_rank y) (start_rank x)) as [L|L];
    destruct (Qcompare_spec (start_rank y) (start_rank x)) as [E|E|E]; simpl;
    try reflexivity.
  - exfalso. rewrite E in L. exact (Qlt_irrefl _ L).
  - rewrite IH by (constructor; [exact Hx|exact Hs]). reflexivity.
  - exfalso. exact (Qlt_irrefl _ (Qlt_trans _ _ _ L E)).
  - exfalso. exact (Qle_not_lt _ _ L E).
Qed.

Lemma sort_by_start_rank (l : list VideoClip) :
  Forall (fun c => ~ nan_start c) l -> sort_by_start l = Ok (sortQ l).
Proof.
  induction 1 as [|x l Hx Hl IH]; simpl; [reflexivity|].
  rewrite IH. simpl. apply insert_head_rank. constructor; [exact Hx|].
  eapply Permutation_Forall; [apply sortQ_perm|exact Hl].
Qed.

Lemma insertQ_comm (x y : VideoClip) (s : list VideoClip) :
  ~ start_rank x == start_rank y -> insertQ x (insertQ y s) = insertQ y (insertQ x s).
Proof.
  intro Hxy. induction s as [|z s IH]; simpl; case_Qlt;
    try reflexivity; try (rewrite IH; reflexivity);
    exfalso; first [lra | apply Hxy; lra].
Qed.

Lemma start_key_neq (x y : VideoClip) : start_key x <> start_key y -> ~ start_rank x == start_rank y.
Proof. intros H E. apply H. unfold start_key. now apply Qred_complete. Qed.

Lemma sortQ_perm_invariant (l l' : list VideoClip) :
  Permutation l l' -> NoDup (map start_key l) -> sortQ l = sortQ l'.
Proof.
  induction 1 as [|x l l' Hp IH|y x l|l l' l'' H1 IH1 H2 IH2]; intro Hnd; simpl.
  - reflexivity.
  - inversion Hnd; subst. now rewrite IH.
  - inversion Hnd as [|? ? Hy Hnd']; subst.
    apply insertQ_comm, start_key_neq. intro E. apply Hy. rewrite E. now left.
  - rewrite IH1 by exact Hnd. apply IH2.
    eapply Permutation_NoDup; [apply Permutation_map; exact H1|exact Hnd].
Qed.

(** Stability: a predicate that holds only on clips of one rank selects
    the same clips, in the same order, before and after the sort. *)
Lemma filter_insertQ (P : VideoClip -> bool) (x : VideoClip) (s : list VideoClip) :
  (forall a b, P a = true -> P b = true -> start_rank a == start_rank b) ->
  filter P (insertQ x s) = if P x then x :: filter P s else filter P s.
Proof.
  intro HP. induction s as [|z s IH]; simpl.
  - destruct (P x); reflexivity.
  - destruct (Qlt_le_dec (start_rank z) (start_rank x)) as [Hzx|Hxz]; simpl; [|reflexivity].
    rewrite IH.
    destruct (P z) eqn:Ez, (P x) eqn:Ex; try reflexivity.
    pose proof (HP z x Ez Ex). exfalso. lra.
Qed.

Lemma filter_sortQ (P : VideoClip -> bool) (l : list VideoClip) :
  (forall a b, P a = true -> P b = true -> start_rank a == start_rank b) ->
  filter P (sortQ l) = filter P l.
Proof.
  intro HP. induction l as [|x l IH]; simpl; [reflexivity|].
  rewrite filter_insertQ, IH by exact HP. reflexivity.
Qed.

Lemma same_start_rank (v : f64) (c : VideoClip) :
  same_start v c = true -> start_rank c == f64_rank v.
Proof.
  unfold same_start, start_rank. intro H.
  destruct (start_time c) eqn:Ec; [| | |destruct v; discriminate];
    (destruct v; [| | |discriminate]);
    rewrite partial_cmp_rank in H by discriminate;
    apply Qeq_alt;
    match goal with |- (?a ?= ?b) = Eq => destruct (a ?= b) end; congruence.
Qed.

Lemma same_start_one_rank (v : f64) (a b : VideoClip) :
  same_start v a = true -> same_start v b = true -> start_rank a == start_rank b.
Proof.
  intros Ha Hb. rewrite (same_start_rank v a Ha), (same_start_rank v b Hb). reflexivity.
Qed.

(** The sorted list is ordered: no clip starts after the next one. *)
Lemma gt_rank (a b : VideoClip) :
  ~ nan_start a -> ~ nan_start b -> start_rank a <= start_rank b ->
  f64_gt (start_time a) (start_time b) = false.
Proof.
  intros Ha Hb H. unfold f64_gt. rewrite (partial_cmp_rank _ _ Ha Hb).
  fold (start_rank a). fold (start_rank b).
  destruct (Qcompare_spec (start_rank a) (start_rank b)); try reflexivity. exfalso. lra.
Qed.

Lemma insertQ_sorted (x : VideoClip) (s : list VideoClip) :
  Forall (fun c => ~ nan_start c) (x :: s) ->
  Sorted (fun a b => f64_gt (start_time a) (start_time b) = false) s ->
  Sorted (fun a b => f64_gt (start_time a) (start_time b) = false) (insertQ x s).
Proof.
  intros Hf Hs. inversion Hf as [|? ? Hx Hf']; subst. clear Hf.
  induction Hs as [|y s Hs IH Hhd]; simpl.
  - repeat constructor.
  - inversion Hf' as [|? ? Hy Hf'']; subst.
    destruct (Qlt_le_dec (start_rank y) (start_rank x)) as [L|L].
    + constructor; [exact (IH Hf'')|].
      destruct s as [|z s]; simpl.
      * constructor. apply gt_rank; [exact Hy|exact Hx|lra].
      * inversion Hhd as [|? ? Hyz]; subst.
        destruct (Qlt_le_dec (start_rank z) (start_rank x)); constructor;
          [exact Hyz|apply gt_rank; [exact Hy|exact Hx|lra]].
    + constructor; [constructor; [exact Hs|exact Hhd]|].
      constructor. apply gt_rank; assumption.
Qed.

Lemma sortQ_sorted (l : list VideoClip) :
  Forall (fun c => ~ nan_start c) l ->
  Sorted (fun a b => f64_gt (start_time a) (start_time b) = false) (sortQ l).
Proof.
  induction 1 as [|x l Hx Hl IH]; simpl; [constructor|].
  apply insertQ_sorted; [|exact IH].
  constructor; [exact Hx|]. eapply Permutation_Forall; [apply sortQ_perm|exact Hl].
Qed.

Lemma nan_start_dec (c : VideoClip) : {nan_start c} + {~ nan_start c}.
Proof. unfold nan_start. destruct (start_time c); [right|right|right|left]; congruence. Qed.

Lemma distinct_NoDup (l : list VideoClip) :
  Forall (fun c => ~ nan_start c) l ->
  ForallOrdPairs (fun a b => f64_partial_cmp (start_time a) (start_time b) <> Some Eq) l ->
  NoDup (map start_key l).
Proof.
  intros Hf Hp. induction Hp as [|a l Ha Hp IH]; simpl; constructor.
  - inversion Hf as [|? ? Hna Hfl]; subst. intro Hin.
    apply in_map_iff in Hin as (b & Eb & Hb).
    rewrite Forall_forall in Ha, Hfl. apply (Ha b Hb).
    rewrite (partial_cmp_rank _ _ Hna (Hfl b Hb)). fold (start_rank a). fold (start_rank b).
    f_equal. apply Qeq_alt. rewrite <- (Qred_correct (start_rank a)), <- (Qred_correct (start_rank b)).
    unfold start_key in Eb. rewrite Eb. reflexivity.
  - apply IH. now inversion Hf.
Qed.

(** A list on which the sort succeeds while a start time is NaN has a
    single clip. *)
Lemma sort_ok_nan (l : list VideoClip) (s : list VideoClip) :
  sort_by_start l = Ok s -> Exists nan_start l -> exists c, l = [c] /\ s = [c].
Proof.
  intros Hs Hn. destruct l as [|c [|d l]].
  - inversion Hn.
  - exists c. split; [reflexivity|]. simpl in Hs. now injection Hs as <-.
  - rewrite sort_by_start_nan in Hs by (simpl; lia || assumption). discriminate.
Qed.

Lemma sort_by_start_sorted (l s : list VideoClip) :
  sort_by_start l = Ok s ->
  Sorted (fun a b => f64_gt (start_time a) (start_time b) = false) s.
Proof.
  intro Hs. destruct (Exists_dec _ l nan_start_dec) as [Hn|Hf].
  - destruct (sort_ok_nan l s Hs Hn) as (c & -> & ->). repeat constructor.
  - apply Forall_Exists_neg in Hf. rewrite (sort_by_start_rank _ Hf) in Hs.
    injection Hs as <-. now apply sortQ_sorted.
Qed.

(** C5: the sort of [export_timeline] returns a permutation of the clips,
    ordered by start time (no clip starts after the next one), in which
    the clips with a given start time keep their input order (stable
    ties); and when no two start times compare equal, every permutation
    of the input yields the same export (same inputs, graph and duration,
    or the same panic). *)
Theorem order_independent_stable (l : list VideoClip) :
  (forall sorted, sort_by_start l = Ok sorted ->
     Permutation l sorted
     /\ Sorted (fun a b => f64_gt (start_time a) (start_time b) = false) sorted
     /\ forall v, filter (same_start v) sorted = filter (same_start v) l)
  /\ (forall l' out res, Permutation l l' ->
        ForallOrdPairs (fun a b => f64_partial_cmp (start_time a) (start_time b) <> Some Eq) l ->
        export_timeline {| clips := l; output_path := out; resolution := res |}
        = export_timeline {| clips := l'; output_path := out; resolution := res |}).
Proof.
  split.
  - intros sorted Hs. destruct (Exists_dec _ l nan_start_dec) as [Hn|Hf].
    + destruct (sort_ok_nan l sorted Hs Hn) as (c & -> & ->).
      split; [reflexivity|]. split; [repeat constructor|reflexivity].
    + apply Forall_Exists_neg in Hf. rewrite (sort_by_start_rank _ Hf) in Hs. injection Hs as <-.
      split; [apply sortQ_perm|]. split; [now apply sortQ_sorted|].
      intro v. apply filter_sortQ. apply same_start_one_rank.
  - intros l' out res Hp Hd. unfold export_timeline; simpl.
    destruct l as [|c cs].
    + apply Permutation_nil in Hp. now subst.
    + destruct l' as [|c' cs']; [apply Permutation_sym, Permutation_nil in Hp; discriminate|].
      destruct (Exists_dec _ (c :: cs) nan_start_dec) as [Hn|Hf].
      2:{ apply Forall_Exists_neg in Hf.
        assert (Hf' : Forall (fun c => ~ nan_start c) (c' :: cs')) by (eapply Permutation_Forall; eassumption).
        rewrite (sort_by_start_rank _ Hf), (sort_by_start_rank _ Hf').
        rewrite (sortQ_perm_invariant _ _ Hp (distinct_NoDup _ Hf Hd)). reflexivity. }
      * destruct cs as [|d cs].
        -- apply Permutation_length_1_inv in Hp. now rewrite Hp.
        -- assert (Hn' : Exists nan_start (c' :: cs')) by (eapply Permutation_Exists; eassumption).
           pose proof (Permutation_length Hp) as Hl. simpl in Hl.
           rewrite (sort_by_start_nan (c :: d :: cs)) by (simpl; lia || assumption).
           rewrite (sort_by_start_nan (c' :: cs')) by (simpl; lia || assumption).
           reflexivity.
Qed.

Lemma order_independent_stable_witness :
  (forall sorted, sort_by_start [clipB; clipA] = Ok sorted ->
     Permutation [clipB; clipA] sorted
     /\ Sorted (fun a b => f64_gt (start_time a) (start_time b) = false) sorted
     /\ forall v, filter (same_start v) sorted = filter (same_start v) [clipB; clipA])
  /\ (forall l' out res, Permutation [clipB; clipA] l' ->
        ForallOrdPairs (fun a b => f64_partial_cmp (start_time a) (start_time b) <> Some Eq) [clipB; clipA] ->
        export_timeline {| clips := [clipB; clipA]; output_path := out; resolution := res |}
        = export_timeline {| clips := l'; output_path := out; resolution := res |}).
Proof. apply (order_independent_stable [clipB; clipA]). Defined.

(** The example of section 8: B = [5,7) given before A = [0,2) plans as A, B. *)
Example out_of_order_example :
  export_timeline (params_of [clipB; clipA]) = export_timeline (params_of [clipA; clipB]).
Proof. reflexivity. Qed.

(* ------------------------------------------------------------------ *)
(** ** Frame geometry of the emitted video sub-chains *)

Lemma loop_body_video_ok (w h : Z) (i : nat) (c : VideoClip) (st : LoopState) :
  video_inputs_ok w h (filter_parts st) ->
  video_inputs_ok w h (filter_parts (loop_body w h i c st)).
Proof.
  unfold video_inputs_ok. intro H. unfold loop_body.
  destruct (f64_gt (start_time c) (current_time st)); simpl; rewrite ?Forall_app;
    repeat split; try exact H; repeat constructor; simpl; intros j Hj; try discriminate.
  all: injection Hj as <-; eauto.
Qed.

Lemma build_filter_complex_video_ok (w h : Z) (l : list VideoClip) :
  video_inputs_ok w h (build_filter_complex w h l).
Proof.
  unfold build_filter_complex, video_inputs_ok. apply Forall_app. split.
  - assert (Hgen : forall l i st, video_inputs_ok w h (filter_parts st) ->
                     video_inputs_ok w h (filter_parts (timeline_loop w h i l st))).
    { induction l0 as [|c l0 IH]; intros i st Hst; simpl; [exact Hst|].
      apply IH, loop_body_video_ok, Hst. }
    apply Hgen. unfold video_inputs_ok; simpl.
    repeat constructor; simpl; intros j Hj; discriminate.
  - constructor; [|constructor]. simpl. intros j Hj.
    exfalso. destruct (timeline_segments _) as [|[v a] segs]; simpl in Hj; discriminate.
Qed.

Lemma scale_decrease_fit (iw ih W H : Z) :
  (0 < iw)%Z -> (0 < ih)%Z ->
  let '(sw, sh) := scale_dims iw ih W H ARDecrease in
  (sw = W /\ sh = av_rescale W ih iw) \/ (sh = H /\ sw = av_rescale H iw ih).
Proof.
  intros Hiw Hih. unfold scale_dims, av_rescale.
  assert (Hw2 : (0 <= iw / 2 < iw)%Z) by (split; [apply Z.div_pos | apply Z.div_lt]; lia).
  assert (Hh2 : (0 <= ih / 2 < ih)%Z) by (split; [apply Z.div_pos | apply Z.div_lt]; lia).
  destruct (Z.le_gt_cases (H * iw) (W * ih)) as [Hc|Hc].
  - assert (Htw : ((H * iw + ih / 2) / ih <= W)%Z).
    { apply Z.lt_succ_r, Z.div_lt_upper_bound; nia. }
    assert (Hth : (H <= (W * ih + iw / 2) / iw)%Z).
    { apply Z.div_le_lower_bound; nia. }
    right. rewrite (Z.min_l _ _ Htw), (Z.min_r _ _ Hth). split; reflexivity.
  - assert (Hth : ((W * ih + iw / 2) / iw <= H)%Z).
    { apply Z.lt_succ_r, Z.div_lt_upper_bound; nia. }
    assert (Htw : (W <= (H * iw + ih / 2) / ih)%Z).
    { apply Z.div_le_lower_bound; nia. }
    left. rewrite (Z.min_r _ _ Htw), (Z.min_l _ _ Hth). split; reflexivity.
Qed.

Lemma pad_center_offset (W sw : Z) :
  (sw <= W)%Z -> (0 <= Z.quot (W - sw) 2 /\ Z.quot (W - sw) 2 + sw <= W)%Z
                 /\ Z.quot (W - sw) 2 = ((W - sw) / 2)%Z.
Proof.
  intro H. rewrite Z.quot_div_nonneg by lia.
  pose proof (Z.mul_div_le (W - sw) 2 ltac:(lia)).
  pose proof (Z.div_pos (W - sw) 2 ltac:(lia) ltac:(lia)).
  repeat split; lia.
Qed.

(** C6: every clip's video sub-chain is
    [trim, setpts, scale=W:H:force_original_aspect_ratio=decrease,
    pad=W:H:(ow-iw)/2:(oh-ih)/2:black, setsar=1] for the requested
    (W, H).  For any source size, the scaled frame fits the box with one
    side equal to it and the other the aspect-preserving (rounded) size,
    it is placed at the centred offsets, and the chain outputs exactly
    (W, H). *)
Theorem clip_chain_fit_pad (p : ExportParams) (args : list Arg) (f : Filter) (i : nat) (iw ih : Z) :
  export_timeline p = RunFfmpeg args ->
  In f (filter_complex_of args) ->
  ins f = [LInV i] ->
  (0 < iw)%Z -> (0 < ih)%Z ->
  let '(W, H) := resolve_resolution (resolution p) in
  let '(sw, sh) := scale_dims iw ih W H ARDecrease in
  (exists ts td,
      chain f = [Trim ts td; SetPts; Scale W H ARDecrease; PadOp W H pad_x pad_y "black"; SetSar 1])
  /\ frame_size (chain f) (iw, ih) = Some (W, H)
  /\ ((sw = W /\ sh = av_rescale W ih iw) \/ (sh = H /\ sw = av_rescale H iw ih))
  /\ (sw <= W /\ sh <= H)%Z
  /\ eval_pad_expr W H sw sh pad_x = ((W - sw) / 2)%Z
  /\ eval_pad_expr W H sw sh pad_y = ((H - sh) / 2)%Z.
Proof.
  intros Hrun Hin Hins Hiw Hih.
  destruct (export_timeline_run p args Hrun) as (s & _ & _ & ->).
  rewrite filter_complex_of_build_args in Hin.
  pose proof (build_filter_complex_video_ok (fst (resolve_resolution (resolution p)))
                (snd (resolve_resolution (resolution p))) s) as Hok.
  unfold video_inputs_ok in Hok. rewrite Forall_forall in Hok.
  destruct (Hok f Hin i Hins) as (ts & td & ->).
  pose proof (scale_decrease_fit iw ih (fst (resolve_resolution (resolution p)))
                (snd (resolve_resolution (resolution p))) Hiw Hih) as Hfit.
  destruct (resolve_resolution (resolution p)) as [W H]; simpl fst in *; simpl snd in *.
  cbv beta iota.
  destruct (scale_dims iw ih W H ARDecrease) as [sw sh] eqn:Hsd.
  assert (Hle : (sw <= W /\ sh <= H)%Z).
  { unfold scale_dims in Hsd. injection Hsd as <- <-. lia. }
  destruct (pad_center_offset W sw (proj1 Hle)) as [[Hx1 Hx2] Hx].
  destruct (pad_center_offset H sh (proj2 Hle)) as [[Hy1 Hy2] Hy].
  split; [eexists _, _; reflexivity|].
  split; [|split; [exact Hfit|split; [exact Hle|split; [exact Hx|exact Hy]]]].
  simpl chain. cbn [frame_size fst snd]. rewrite Hsd. cbn [fst snd pad_x pad_y eval_pad_expr].
  apply Z.leb_le in Hx1, Hx2, Hy1, Hy2. rewrite Hx1, Hx2, Hy1, Hy2. reflexivity.
Qed.

Lemma clip_chain_fit_pad_witness :
  let '(W, H) := resolve_resolution (resolution (params_of [clipA; clipB])) in
  let '(sw, sh) := scale_dims 640 480 W H ARDecrease in
  (exists ts td,
      chain (video_filter 0 (Fin 0) (Fin 2) 1920 1080)
      = [Trim ts td; SetPts; Scale W H ARDecrease; PadOp W H pad_x pad_y "black"; SetSar 1])
  /\ frame_size (chain (video_filter 0 (Fin 0) (Fin 2) 1920 1080)) (640, 480)%Z = Some (W, H)
  /\ ((sw = W /\ sh = av_rescale W 480 640) \/ (sh = H /\ sw = av_rescale H 640 480))
  /\ (sw <= W /\ sh <= H)%Z
  /\ eval_pad_expr W H sw sh pad_x = ((W - sw) / 2)%Z
  /\ eval_pad_expr W H sw sh pad_y = ((H - sh) / 2)%Z.
Proof.
  apply (clip_chain_fit_pad (params_of [clipA; clipB])
           (build_args (params_of [clipA; clipB]) [clipA; clipB])
           (video_filter 0 (Fin 0) (Fin 2) 1920 1080) 0 640 480).
  - reflexivity.
  - simpl. do 2 right. left. reflexivity.
  - reflexivity.
  - lia.
  - lia.
Defined.

(* ------------------------------------------------------------------ *)
(** ** [str::replace] and [convert_mov_to_mp4] *)

Lemma string_length_append (a b : string) :
  String.length (a ++ b) = (String.length a + String.length b)%nat.
Proof. induction a as [|c a IH]; simpl; [reflexivity|now rewrite IH]. Qed.

Lemma replace_from_skip (f t u r : string) :
  replace_from f t (String.length u) (u ++ r) = replace_from f t 0 r.
Proof. induction u as [|c u IH]; simpl; [reflexivity|exact IH]. Qed.

Lemma prefix_app_inv (f s : string) :
  String.prefix f s = true -> exists r, s = (f ++ r)%string.
Proof.
  revert s; induction f as [|a f IH]; intros s H; [exists s; reflexivity|].
  destruct s as [|b s]; simpl in H; [discriminate|].
  destruct (ascii_dec a b) as [->|]; [|discriminate].
  destruct (IH s H) as [r ->]. exists r; reflexivity.
Qed.

Lemma prefix_app (f r : string) : String.prefix f (f ++ r) = true.
Proof.
  induction f as [|a f IH]; simpl; [now destruct r|].
  destruct (ascii_dec a a) as [_|n]; [exact IH|now destruct n].
Qed.

Lemma str_replace_match (f t r : string) :
  f <> EmptyString -> str_replace f t (f ++ r) = (t ++ str_replace f t r)%string.
Proof.
  destruct f as [|a f]; [congruence|]. intros _. unfold str_replace.
  change (replace_from (String a f) t 0 (String a f ++ r))
    with (if String.prefix (String a f) (String a f ++ r)
          then (t ++ replace_from (String a f) t (String.length f) (f ++ r))%string
          else String a (replace_from (String a f) t 0 (f ++ r))).
  rewrite prefix_app, replace_from_skip. reflexivity.
Qed.

Lemma str_replace_nomatch (f t : string) (c : ascii) (s : string) :
  String.prefix f (String c s) = false ->
  str_replace f t (String c s) = String c (str_replace f t s).
Proof.
  intro H. unfold str_replace.
  change (replace_from f t 0 (String c s))
    with (if String.prefix f (String c s)
          then (t ++ replace_from f t (pred (String.length f)) s)%string
          else String c (replace_from f t 0 s)).
  now rewrite H.
Qed.

Lemma str_replace_id (f t s : string) :
  contains f s = false -> str_replace f t s = s.
Proof.
  induction s as [|c s IH]; intro H; [reflexivity|].
  simpl in H. apply orb_false_iff in H as [H1 H2].
  rewrite str_replace_nomatch by exact H1. now rewrite IH.
Qed.

Lemma str_replace_length (f t s : string) :
  f <> EmptyString -> (String.length f <= String.length t)%nat ->
  (String.length s <= String.length (str_replace f t s))%nat.
Proof.
  intros Hf Hl. remember (String.length s) as n eqn:En.
  revert s En. induction n as [n IH] using lt_wf_ind. intros s En. subst n.
  destruct s as [|c s]; [simpl; lia|].
  destruct (String.prefix f (String c s)) eqn:Hp.
  - destruct (prefix_app_inv _ _ Hp) as [r Hr]. rewrite Hr.
    rewrite str_replace_match by exact Hf.
    assert (Hlen : String.length (String c s) = (String.length f + String.length r)%nat)
      by now rewrite Hr, string_length_append.
    destruct f as [|a f]; [congruence|].
    rewrite string_length_append, string_length_append.
    pose proof (IH (String.length r) ltac:(simpl in *; lia) r eq_refl). lia.
  - rewrite str_replace_nomatch by exact Hp. simpl.
    pose proof (IH (String.length s) ltac:(simpl in *; lia) s eq_refl). lia.
Qed.

Lemma str_replace_grows (f t s : string) :
  f <> EmptyString -> (String.length f < String.length t)%nat ->
  contains f s = true ->
  (String.length s < String.length (str_replace f t s))%nat.
Proof.
  intros Hf Hl. induction s as [|c s IH]; intro H.
  - destruct f; [congruence|discriminate].
  - destruct (String.prefix f (String c s)) eqn:Hp.
    + destruct (prefix_app_inv _ _ Hp) as [r Hr]. rewrite Hr.
      rewrite str_replace_match by exact Hf.
      rewrite !string_length_append.
      pose proof (str_replace_length f t r Hf ltac:(lia)). lia.
    + rewrite str_replace_nomatch by exact Hp.
      change (String.prefix f (String c s) || contains f s = true) in H.
      rewrite Hp in H. simpl in H |- *. specialize (IH H). lia.
Qed.

(** Reading [prefix p] through the [".mov"] replacement, for [p] without
    ['.'] or ['_']. *)
Lemma prefix_mov_output_path (p s : string) :
  (forall a, In a (list_ascii_of_string p) -> a <> "."%char /\ a <> "_"%char) ->
  String.prefix p (mov_output_path s) = String.prefix p s.
Proof.
  unfold mov_output_path. revert s.
  induction p as [|a p IH]; intros s Hp; [destruct (str_replace _ _ s), s; reflexivity|].
  destruct (Hp a (or_introl eq_refl)) as [Ha1 Ha2].
  destruct s as [|c s]; [reflexivity|].
  destruct (String.prefix ".mov" (String c s)) eqn:Hm.
  - destruct (prefix_app_inv _ _ Hm) as [r Hr]. rewrite Hr.
    rewrite str_replace_match by discriminate.
    simpl. destruct (ascii_dec a "_"); [congruence|].
    destruct (ascii_dec a "."); [congruence|]. reflexivity.
  - rewrite str_replace_nomatch by exact Hm. simpl.
    destruct (ascii_dec a c); [|reflexivity].
    apply IH. intros b Hb. apply Hp. now right.
Qed.

Lemma contains_converted (x : string) :
  contains ".mov" ("_converted.mp4" ++ x) = contains ".mov" x.
Proof. reflexivity. Qed.

Lemma mov_output_path_match (r : string) :
  mov_output_path (".mov" ++ r) = ("_converted.mp4" ++ mov_output_path r)%string.
Proof. apply str_replace_match. discriminate. Qed.

Lemma mov_output_path_nomatch (c : ascii) (s : string) :
  String.prefix ".mov" (String c s) = false ->
  mov_output_path (String c s) = String c (mov_output_path s).
Proof. apply str_replace_nomatch. Qed.

(** [convert_mov_to_mp4] writes to its input path exactly when the path
    has no [".mov"]: then FFmpeg is asked to overwrite its own input. *)
Theorem convert_output_same_as_input (input_path : string) :
  mov_output_path input_path = input_path <-> contains ".mov" input_path = false.
Proof.
  split.
  - intro H. destruct (contains ".mov" input_path) eqn:Hc; [|reflexivity].
    exfalso. pose proof (str_replace_grows ".mov" "_converted.mp4" input_path
                           ltac:(discriminate) ltac:(simpl; lia) Hc) as Hg.
    unfold mov_output_path in H. rewrite H in Hg. lia.
  - apply str_replace_id.
Qed.

(** The derived output path never contains [".mov"]. *)
Theorem convert_output_has_no_mov (input_path : string) :
  contains ".mov" (mov_output_path input_path) = false.
Proof.
  remember (String.length input_path) as n eqn:En. revert input_path En.
  induction n as [n IH] using lt_wf_ind. intros s En.
  destruct s as [|c s]; [reflexivity|].
  destruct (String.prefix ".mov" (String c s)) eqn:Hm.
  - destruct (prefix_app_inv _ _ Hm) as [r Hr]. rewrite Hr, mov_output_path_match.
    rewrite contains_converted. apply (IH (String.length r)); [|reflexivity].
    rewrite En, Hr. simpl. lia.
  - rewrite mov_output_path_nomatch by exact Hm.
    change (contains ".mov" (String c (mov_output_path s)))
      with (String.prefix ".mov" (String c (mov_output_path s)) || contains ".mov" (mov_output_path s)).
    rewrite (IH (String.length s)) by (simpl in En; lia).
    rewrite orb_false_r.
    change (String.prefix ".mov" (String c (mov_output_path s)))
      with (if ascii_dec "." c then String.prefix "mov" (mov_output_path s) else false).
    rewrite prefix_mov_output_path.
    + exact Hm.
    + simpl. intros a [<-|[<-|[<-|[]]]]; split; discriminate.
Qed.

Lemma prefix_cons (a : ascii) (p : string) (c : ascii) (s : string) :
  String.prefix (String a p) (String c s) = if ascii_dec a c then String.prefix p s else false.
Proof. reflexivity. Qed.

Lemma prefix_mov_straddle (c : ascii) (a b : string) :
  String.prefix ".mov" (String c a) = false ->
  String.prefix ".mov" (String c (a ++ ".mov" ++ b)) = false.
Proof.
  intro H. destruct a as [|x [|y [|z a]]]; cbn [append] in *; rewrite ?prefix_cons in *;
    repeat (match goal with |- context [ascii_dec ?u ?v] => destruct (ascii_dec u v) end);
    repeat (match goal with H : context [ascii_dec ?u ?v] |- _ => destruct (ascii_dec u v) end);
    try reflexivity; try discriminate; try congruence.
  destruct a; discriminate.
Qed.

(** A path with no [".mov"] before a [".mov"] gets [_converted.mp4] there:
    [dir/clip.mov] becomes [dir/clip_converted.mp4]; every later
    [".mov"] is rewritten the same way. *)
Theorem convert_output_first_mov (a b : string) :
  contains ".mov" a = false ->
  mov_output_path (a ++ ".mov" ++ b) = (a ++ "_converted.mp4" ++ mov_output_path b)%string.
Proof.
  induction a as [|c a IH]; intro H.
  - apply mov_output_path_match.
  - change (String.prefix ".mov" (String c a) || contains ".mov" a = false) in H.
    apply orb_false_iff in H as [H1 H2].
    change ((String c a ++ ".mov" ++ b)%string) with (String c (a ++ ".mov" ++ b)).
    rewrite mov_output_path_nomatch by now apply prefix_mov_straddle.
    now rewrite IH.
Qed.

Lemma convert_output_first_mov_witness :
  contains ".mov" "dir/clip" = false /\
  mov_output_path ("dir/clip" ++ ".mov" ++ "") = ("dir/clip" ++ "_converted.mp4" ++ mov_output_path "")%string.
Proof. split; [reflexivity|]. apply convert_output_first_mov. reflexivity. Defined.

(* ------------------------------------------------------------------ *)
(** ** More of [export_timeline]: arguments, inputs and the black sources *)

Lemma timeline_loop_prefix (w h : Z) (l : list VideoClip) :
  forall i st, exists rest, filter_parts (timeline_loop w h i l st) = filter_parts st ++ rest.
Proof.
  induction l as [|c l IH]; intros i st; simpl.
  - exists []. now rewrite app_nil_r.
  - destruct (IH (S i) (loop_body w h i c st)) as [rest ->].
    unfold loop_body. destruct (f64_gt (start_time c) (current_time st)); simpl;
      rewrite <- !app_assoc; eexists; reflexivity.
Qed.

Lemma timeline_loop_reads_inputs (w h : Z) (l : list VideoClip) :
  forall i st j, (i <= j < i + List.length l)%nat ->
  exists ts td, In (video_filter j ts td w h) (filter_parts (timeline_loop w h i l st))
                /\ In (audio_filter j ts td) (filter_parts (timeline_loop w h i l st)).
Proof.
  induction l as [|c l IH]; intros i st j Hj; simpl in Hj; [lia|].
  simpl. destruct (Nat.eq_dec i j) as [<-|Hne].
  - destruct (timeline_loop_prefix w h l (S i) (loop_body w h i c st)) as [rest ->].
    exists (trim_in c), (f64_sub (trim_out c) (trim_in c)).
    unfold loop_body. destruct (f64_gt (start_time c) (current_time st)); simpl;
      split; apply in_or_app; left; apply in_or_app; right; simpl; auto.
  - apply IH. lia.
Qed.

Lemma input_paths_skip (o : string) (rest : list Arg) :
  String.eqb o "-i" = false -> input_paths (AStr o :: rest) = input_paths rest.
Proof.
  intro H. destruct rest as [|[s| |] rest]; simpl; try reflexivity.
  now rewrite H.
Qed.

Lemma input_paths_inputs (l : list VideoClip) (rest : list Arg) :
  input_paths (flat_map (fun c => [AStr "-i"; AStr (file_path c)]) l ++ rest)
  = map file_path l ++ input_paths rest.
Proof. induction l as [|c l IH]; simpl; [reflexivity|now rewrite IH]. Qed.

Lemma input_paths_build_args (p : ExportParams) (l : list VideoClip) :
  input_paths (build_args p l) = map file_path l.
Proof.
  unfold build_args. destruct (resolve_resolution (resolution p)) as [w h].
  simpl app. rewrite input_paths_skip by reflexivity.
  rewrite input_paths_inputs. simpl.
  rewrite app_nil_r. reflexivity.
Qed.

Lemma last_build_args (p : ExportParams) (l : list VideoClip) (d : Arg) :
  last (build_args p l) d = AStr (output_path p).
Proof.
  unfold build_args. destruct (resolve_resolution (resolution p)) as [w h].
  rewrite !app_assoc. apply last_last.
Qed.

(** [export_timeline] always passes [-y] first (FFmpeg overwrites the
    output file without asking) and the output path last, and its [-i]
    inputs are the clips' file paths, each once, in start-time order: they
    are the paths of the list the sort returned, which is a permutation of
    the given clips in which no clip starts after the next one. *)
Theorem export_args_shape (p : ExportParams) (args : list Arg) :
  export_timeline p = RunFfmpeg args ->
  hd_error args = Some (AStr "-y")
  /\ last args (AStr "") = AStr (output_path p)
  /\ Permutation (input_paths args) (map file_path (clips p))
  /\ exists sorted, sort_by_start (clips p) = Ok sorted
      /\ input_paths args = map file_path sorted
      /\ Sorted (fun a b => f64_gt (start_time a) (start_time b) = false) sorted.
Proof.
  intro H. destruct (export_timeline_run p args H) as (s & _ & Hs & ->).
  split; [unfold build_args; destruct (resolve_resolution (resolution p)); reflexivity|].
  split; [apply last_build_args|].
  rewrite input_paths_build_args. split.
  - apply Permutation_map. symmetry. now apply sort_by_start_perm.
  - exists s. split; [exact Hs|]. split; [reflexivity|].
    exact (sort_by_start_sorted _ _ Hs).
Qed.

Lemma export_args_shape_witness :
  export_timeline (params_of [clipB; clipA]) = RunFfmpeg (build_args (params_of [clipB; clipA]) [clipA; clipB])
  /\ hd_error (build_args (params_of [clipB; clipA]) [clipA; clipB]) = Some (AStr "-y")
  /\ last (build_args (params_of [clipB; clipA]) [clipA; clipB]) (AStr "") = AStr (output_path (params_of [clipB; clipA]))
  /\ Permutation (input_paths (build_args (params_of [clipB; clipA]) [clipA; clipB]))
                 (map file_path (clips (params_of [clipB; clipA])))
  /\ exists sorted, sort_by_start (clips (params_of [clipB; clipA])) = Ok sorted
      /\ input_paths (build_args (params_of [clipB; clipA]) [clipA; clipB]) = map file_path sorted
      /\ Sorted (fun a b => f64_gt (start_time a) (start_time b) = false) sorted.
Proof.
  split; [reflexivity|]. apply export_args_shape. reflexivity.
Defined.

(** For every input [i] of the command, the graph reads both its video
    stream [[i:v]] (trim, scale, pad) and its audio stream [[i:a]]
    (atrim): every clip's file must carry an audio stream. *)
Theorem export_reads_every_input (p : ExportParams) (args : list Arg) :
  export_timeline p = RunFfmpeg args ->
  forall i, (i < List.length (clips p))%nat ->
  exists ts td w h, In (video_filter i ts td w h) (filter_complex_of args)
                    /\ In (audio_filter i ts td) (filter_complex_of args).
Proof.
  intros H i Hi. destruct (export_timeline_run p args H) as (s & _ & Hs & ->).
  rewrite filter_complex_of_build_args.
  set (w := fst (resolve_resolution (resolution p))).
  set (h := snd (resolve_resolution (resolution p))).
  apply sort_by_start_perm, Permutation_length in Hs.
  destruct (timeline_loop_reads_inputs w h s 0 (initial_state w h s) i ltac:(lia))
    as (ts & td & Hv & Ha).
  exists ts, td, w, h. unfold build_filter_complex.
  split; apply in_or_app; left; assumption.
Qed.

Lemma export_reads_every_input_witness :
  export_timeline (params_of [clipA; clipB]) = RunFfmpeg (build_args (params_of [clipA; clipB]) [clipA; clipB])
  /\ (1 < List.length (clips (params_of [clipA; clipB])))%nat
  /\ exists ts td w h,
       In (video_filter 1 ts td w h) (filter_complex_of (build_args (params_of [clipA; clipB]) [clipA; clipB]))
       /\ In (audio_filter 1 ts td) (filter_complex_of (build_args (params_of [clipA; clipB]) [clipA; clipB])).
Proof.
  split; [reflexivity|]. split; [simpl; lia|].
  apply (export_reads_every_input (params_of [clipA; clipB])); [reflexivity|simpl; lia].
Defined.

Lemma count_reads_app (l : Label) (a b : list Filter) :
  count_reads l (a ++ b) = (count_reads l a + count_reads l b)%nat.
Proof. unfold count_reads. now rewrite filter_app, length_app. Qed.

Lemma count_reads_gap_v (d : f64) (k : nat) :
  count_reads LBlackV [gap_video d k; gap_audio d k] = 1%nat.
Proof. reflexivity. Qed.

Lemma count_reads_gap_a (d : f64) (k : nat) :
  count_reads LBlackA [gap_video d k; gap_audio d k] = 1%nat.
Proof. reflexivity. Qed.

Lemma count_reads_clip_v (i : nat) (ts td : f64) (w h : Z) :
  count_reads LBlackV [video_filter i ts td w h; audio_filter i ts td] = 0%nat.
Proof. reflexivity. Qed.

Lemma count_reads_clip_a (i : nat) (ts td : f64) (w h : Z) :
  count_reads LBlackA [video_filter i ts td w h; audio_filter i ts td] = 0%nat.
Proof. reflexivity. Qed.

Lemma timeline_loop_black_reads (w h : Z) (l : list VideoClip) :
  forall i st,
    count_reads LBlackV (filter_parts (timeline_loop w h i l st))
    = (count_reads LBlackV (filter_parts st) + List.length (filter is_gap (spec_plan (current_time st) i l)))%nat
    /\ count_reads LBlackA (filter_parts (timeline_loop w h i l st))
    = (count_reads LBlackA (filter_parts st) + List.length (filter is_gap (spec_plan (current_time st) i l)))%nat
    /\ (Forall no_black_label (timeline_segments st) ->
        Forall no_black_label (timeline_segments (timeline_loop w h i l st))).
Proof.
  induction l as [|c l IH]; intros i st; simpl.
  - repeat split; [lia|lia|auto].
  - destruct (IH (S i) (loop_body w h i c st)) as (IHv & IHa & IHs).
    rewrite IHv, IHa. unfold loop_body in *.
    destruct (f64_gt (start_time c) (current_time st)); simpl;
      rewrite ?count_reads_app, ?count_reads_gap_v, ?count_reads_gap_a,
        ?count_reads_clip_v, ?count_reads_clip_a.
    + repeat split; [lia|lia|].
      intro Hs. apply IHs. cbn [timeline_segments]. rewrite !Forall_app. repeat split; [exact Hs| |];
        repeat constructor; simpl; discriminate.
    + repeat split; [lia|lia|].
      intro Hs. apply IHs. cbn [timeline_segments]. rewrite !Forall_app. repeat split; [exact Hs|];
        repeat constructor; simpl; discriminate.
Qed.

Lemma concat_reads_no_black (l : Label) (segs : list (Label * Label)) :
  l = LBlackV \/ l = LBlackA -> Forall no_black_label segs ->
  count_reads l [concat_filter segs] = 0%nat.
Proof.
  intros Hl Hs. unfold count_reads, concat_filter; simpl.
  destruct (in_dec label_eq_dec l (flat_map (fun '(v, a) => [v; a]) segs)) as [Hin|]; [|reflexivity].
  exfalso. apply in_flat_map in Hin as ([v a] & Hva & Hin).
  rewrite Forall_forall in Hs. destruct (Hs _ Hva) as (H1 & H2 & H3 & H4); simpl in *.
  destruct Hin as [E|[E|[]]]; subst l; destruct Hl as [E'|E']; rewrite E' in *; auto.
Qed.

(** The generated [black_v] and [black_a] streams are each read by
    exactly one sub-chain per gap segment: by none when the clips leave
    no gap, and by several when they leave several gaps. *)
Theorem export_black_source_reads (p : ExportParams) (args : list Arg) :
  export_timeline p = RunFfmpeg args ->
  count_reads LBlackV (filter_complex_of args)
  = List.length (filter is_gap (planned_segments (filter_complex_of args)))
  /\ count_reads LBlackA (filter_complex_of args)
  = List.length (filter is_gap (planned_segments (filter_complex_of args))).
Proof.
  intro H. destruct (export_timeline_run p args H) as (s & _ & Hs & ->).
  rewrite filter_complex_of_build_args.
  set (w := fst (resolve_resolution (resolution p))).
  set (h := snd (resolve_resolution (resolution p))).
  rewrite build_filter_complex_segments. unfold build_filter_complex.
  destruct (timeline_loop_black_reads w h s 0 (initial_state w h s)) as (Hv & Ha & Hsg).
  specialize (Hsg (Forall_nil _)).
  rewrite !count_reads_app, Hv, Ha.
  rewrite !concat_reads_no_black by auto.
  simpl. split; lia.
Qed.

Lemma export_black_source_reads_witness :
  export_timeline (params_of [clipA; clipB]) = RunFfmpeg (build_args (params_of [clipA; clipB]) [clipA; clipB])
  /\ count_reads LBlackV (filter_complex_of (build_args (params_of [clipA; clipB]) [clipA; clipB]))
     = List.length (filter is_gap (planned_segments (filter_complex_of (build_args (params_of [clipA; clipB]) [clipA; clipB]))))
  /\ count_reads LBlackA (filter_complex_of (build_args (params_of [clipA; clipB]) [clipA; clipB]))
     = List.length (filter is_gap (planned_segments (filter_complex_of (build_args (params_of [clipA; clipB]) [clipA; clipB])))).
Proof.
  split; [reflexivity|]. apply (export_black_source_reads (params_of [clipA; clipB])). reflexivity.
Defined.







(* ------------------------------------------------------------------ *)
(** ** [get_video_metadata] *)

(** The two [Err] results of the JSON stage come in a fixed order: a
    missing or non-object [format] is reported whatever the streams are;
    "No video stream found" only when [format] is an object and no stream
    has [codec_type] ["video"]. *)
Theorem metadata_error_order (parse_f64 : string -> option f64) (json : Value) :
  (metadata_of_json parse_f64 json = Ok (err "Missing format information")
   <-> as_object (value_index json "format") = None)
  /\ (metadata_of_json parse_f64 json = Ok (err "No video stream found")
      <-> (exists format, as_object (value_index json "format") = Some format)
          /\ find_video_stream json = None).
Proof.
  unfold metadata_of_json.
  destruct (as_object (value_index json "format")) as [format|].
  - destruct (find_video_stream json) as [vs|].
    + unfold map_index.
      destruct (map_get format "duration"), (map_get format "size"), (map_get format "format_name");
        cbn [bind]; split; split; try discriminate; intros [_ H]; discriminate.
    + split; split; try discriminate; eauto.
  - split; split; try discriminate; try reflexivity.
    intros [[f H] _]; discriminate.
Qed.

(** Once [format] is an object and a video stream is found, the function
    panics exactly when one of the keys [duration], [size] or
    [format_name] is absent from [format]: those three are read with
    [Map]'s indexing, which panics on a missing key. *)
Theorem metadata_panics_on_missing_key (parse_f64 : string -> option f64) (json : Value)
    (format : list (string * Value)) (video_stream : Value) :
  as_object (value_index json "format") = Some format ->
  find_video_stream json = Some video_stream ->
  (metadata_of_json parse_f64 json = Panic
   <-> map_get format "duration" = None \/ map_get format "size" = None
       \/ map_get format "format_name" = None).
Proof.
  intros Hf Hv. unfold metadata_of_json. rewrite Hf, Hv. unfold map_index.
  destruct (map_get format "duration"), (map_get format "size"), (map_get format "format_name");
    cbn [bind]; split; intro H; try discriminate; auto;
    destruct H as [H|[H|H]]; discriminate.
Qed.

Lemma metadata_panics_on_missing_key_witness :
  metadata_of_json parse_int_f64 probe_no_size = Panic.
Proof.
  apply (metadata_panics_on_missing_key parse_int_f64 probe_no_size
           [("duration"%string, VString "12"); ("format_name"%string, VString "mov")]
           (VObject [("codec_type"%string, VString "video"); ("width"%string, VNumber (PosInt 1920))]));
    [reflexivity|reflexivity|].
  right. left. reflexivity.
Defined.

Lemma find_first (f : Value -> bool) (pre post : list Value) (x : Value) :
  Forall (fun y => f y = false) pre -> f x = true -> find f (pre ++ x :: post) = Some x.
Proof.
  induction 1 as [|y pre Hy Hpre IH]; intro Hx; simpl; [now rewrite Hx|].
  rewrite Hy. now apply IH.
Qed.

(** The dimensions and the frame rate come from the first stream whose
    [codec_type] is ["video"]; a width or height is the JSON [u64] taken
    modulo 2^32 (the [as u32] cast), and 0 when it is missing, negative or
    fractional. *)
Theorem metadata_first_video_stream (parse_f64 : string -> option f64) (json : Value)
    (format : list (string * Value)) (pre post : list Value) (video_stream : Value)
    (md : VideoMetadata) :
  as_object (value_index json "format") = Some format ->
  as_array (value_index json "streams") = Some (pre ++ video_stream :: post) ->
  Forall (fun s => value_eq_str (value_index s "codec_type") "video" = false) pre ->
  value_eq_str (value_index video_stream "codec_type") "video" = true ->
  metadata_of_json parse_f64 json = Ok (ok md) ->
  width md = match as_u64 (value_index video_stream "width") with
             | Some n => (n mod 2 ^ 32)%Z | None => 0%Z end
  /\ height md = match as_u64 (value_index video_stream "height") with
                 | Some n => (n mod 2 ^ 32)%Z | None => 0%Z end
  /\ (0 <= width md < 2 ^ 32)%Z /\ (0 <= height md < 2 ^ 32)%Z
  /\ fps md = fps_of parse_f64 (unwrap_or (as_str (value_index video_stream "r_frame_rate")) "0/1"%string).
Proof.
  intros Hf Hs Hpre Hv H.
  assert (Hfind : find_video_stream json = Some video_stream).
  { unfold find_video_stream. rewrite Hs. now apply find_first. }
  unfold metadata_of_json in H. rewrite Hf, Hfind in H. unfold map_index in H.
  destruct (map_get format "duration"), (map_get format "size"), (map_get format "format_name");
    cbn [bind] in H; try discriminate.
  injection H as <-. cbn [width height fps].
  destruct (as_u64 (value_index video_stream "width")), (as_u64 (value_index video_stream "height"));
    cbn [unwrap_or]; repeat split; try reflexivity;
    try (apply Z.mod_pos_bound; lia).
Qed.

Lemma metadata_first_video_stream_witness :
  exists md, metadata_of_json parse_int_f64 probe_two_streams = Ok (ok md)
    /\ width md = 1920%Z /\ height md = 0%Z.
Proof.
  assert (E : exists md, metadata_of_json parse_int_f64 probe_two_streams = Ok (ok md))
    by (eexists; reflexivity).
  destruct E as [md E]. exists md. split; [exact E|].
  destruct (metadata_first_video_stream parse_int_f64 probe_two_streams
              [("duration"%string, VString "12"); ("size"%string, VString "2048");
               ("format_name"%string, VString "mov")]
              [VObject [("codec_type"%string, VString "audio")]] []
              (VObject [("codec_type"%string, VString "video");
                        ("width"%string, VNumber (PosInt (2 ^ 32 + 1920)));
                        ("height"%string, VNumber (NegInt (-1)))])
              md eq_refl eq_refl ltac:(repeat constructor) eq_refl E)
    as (Hw & Hh & _).
  rewrite Hw, Hh. split; reflexivity.
Defined.

(** *** [str::parse::<u64>] on decimal strings *)








(** *** The frame rate *)

Lemma split_once_app (sep : ascii) (a b : string) :
  split_once sep a = None -> split_once sep (a ++ String sep b) = Some (a, b).
Proof.
  induction a as [|c a IH]; intro H; simpl.
  - now rewrite Ascii.eqb_refl.
  - simpl in H. destruct (Ascii.eqb c sep); [discriminate|].
    destruct (split_once sep a); [destruct p; discriminate|].
    now rewrite IH.
Qed.

(** [r_frame_rate] is split at its first ['/'] into numerator and
    denominator; with no ['/'] the rate is 0, a missing [r_frame_rate]
    (read as ["0/1"]) gives 0, and the denominator ["0"] (parsed as +0.0)
    gives +inf for a positive numerator, or NaN for ["0/0"]: nothing
    checks the value. *)
Theorem fps_of_cases (parse_f64 : string -> option f64) :
  parse_f64 "0"%string = Some (Fin 0) -> parse_f64 "1"%string = Some (Fin 1) ->
  (forall num den, split_once "/"%char num = None ->
     fps_of parse_f64 (num ++ String "/"%char den)
     = f64_div (unwrap_or (parse_f64 num) (Fin 0)) (unwrap_or (parse_f64 den) (Fin 1)))
  /\ (forall s, split_once "/"%char s = None -> fps_of parse_f64 s = Fin 0)
  /\ fps_of parse_f64 "0/1"%string = Fin 0
  /\ (forall num x, split_once "/"%char num = None -> parse_f64 num = Some (Fin x) -> 0 < x ->
        fps_of parse_f64 (num ++ "/0")%string = PInf)
  /\ fps_of parse_f64 "0/0"%string = NaN.
Proof.
  intros H0 H1.
  assert (Hsplit : forall num den, split_once "/"%char num = None ->
     fps_of parse_f64 (num ++ String "/"%char den)
     = f64_div (unwrap_or (parse_f64 num) (Fin 0)) (unwrap_or (parse_f64 den) (Fin 1))).
  { intros num den Hn. unfold fps_of. now rewrite split_once_app. }
  split; [exact Hsplit|]. split; [|split; [|split]].
  - intros s Hs. unfold fps_of. now rewrite Hs.
  - change "0/1"%string with ("0" ++ String "/" "1")%string.
    rewrite Hsplit by reflexivity. rewrite H0, H1. reflexivity.
  - intros num x Hn Hx Hpos. change ("/0")%string with (String "/" "0").
    rewrite Hsplit by exact Hn. rewrite Hx, H0. cbn [unwrap_or f64_div].
    replace (Qeq_bool 0 0) with true by reflexivity.
    destruct (Qeq_bool x 0) eqn:E; [apply Qeq_bool_iff in E; rewrite E in Hpos; discriminate Hpos|].
    replace (Qle_bool 0 x) with true; [reflexivity|].
    symmetry. apply Qle_bool_iff. now apply Qlt_le_weak.
  - change "0/0"%string with ("0" ++ String "/" "0")%string.
    rewrite Hsplit by reflexivity. rewrite H0. reflexivity.
Qed.

Lemma fps_of_cases_witness :
  fps_of parse_int_f64 ("30" ++ "/0")%string = PInf /\ fps_of parse_int_f64 "0/0"%string = NaN.
Proof.
  destruct (fps_of_cases parse_int_f64 eq_refl eq_refl) as (_ & _ & _ & Hinf & Hnan).
  split; [|exact Hnan].
  apply (Hinf "30"%string (inject_Z 30)); [reflexivity|reflexivity|reflexivity].
Defined.

(* ------------------------------------------------------------------ *)
(** ** [import_video] *)

(** [import_video] places the clip at [0, duration) with the trim window
    [0, duration] read by [get_video_metadata]; exported on its own, such a
    clip gives a single clip segment covering that trim window and no gap. *)
Theorem import_video_clip (parse_f64 : string -> option f64) (from_slice : string -> result Value)
    (path_exists : string -> bool) (new_uuid : string) (ffprobe : list Arg -> ProcResult)
    (path : string) (c : VideoClip) :
  import_video parse_f64 from_slice path_exists new_uuid ffprobe path = Ok (ok c) ->
  file_path c = path /\ start_time c = Fin 0 /\ trim_in c = Fin 0
  /\ end_time c = duration (metadata c) /\ trim_out c = duration (metadata c)
  /\ forall out res,
       outcome_segments (export_timeline {| clips := [c]; output_path := out; resolution := res |})
       = Some [ClipSegment 0 (Fin 0) (f64_sub (duration (metadata c)) (Fin 0))].
Proof.
  unfold import_video. destruct (path_exists path); cbn [negb]; [|discriminate].
  destruct (get_video_metadata parse_f64 from_slice ffprobe path) as [[md|e]|]; cbn [bind];
    intro H; try discriminate.
  injection H as <-. cbn [file_path start_time trim_in end_time trim_out metadata].
  repeat split. intros out res. cbn [export_timeline clips sort_by_start insert_head bind].
  cbn [outcome_segments]. rewrite filter_complex_of_build_args, build_filter_complex_segments.
  reflexivity.
Qed.

Lemma import_video_clip_witness :
  exists c,
    import_video parse_int_f64 (fun _ => ok probe_two_streams) (fun _ => true) "id-1"%string probe_ok "clip.mov"%string
    = Ok (ok c)
    /\ file_path c = "clip.mov"%string /\ start_time c = Fin 0 /\ trim_in c = Fin 0
    /\ end_time c = duration (metadata c) /\ trim_out c = duration (metadata c)
    /\ forall out res,
         outcome_segments (export_timeline {| clips := [c]; output_path := out; resolution := res |})
         = Some [ClipSegment 0 (Fin 0) (f64_sub (duration (metadata c)) (Fin 0))].
Proof.
  assert (E : exists c, import_video parse_int_f64 (fun _ => ok probe_two_streams) (fun _ => true)
                          "id-1"%string probe_ok "clip.mov"%string = Ok (ok c)) by (eexists; reflexivity).
  destruct E as [c E]. exists c. split; [exact E|].
  exact (import_video_clip parse_int_f64 (fun _ => ok probe_two_streams) (fun _ => true)
           "id-1"%string probe_ok "clip.mov"%string c E).
Defined.

(* ------------------------------------------------------------------ *)
(** ** [get_video_url] and [import_video_from_file] *)

Lemma slash_replace_cons (c : ascii) (s : string) :
  str_replace "/" "_" (String c s)
  = String (if Ascii.eqb c "/"%char then "_"%char else c) (str_replace "/" "_" s).
Proof.
  unfold str_replace. cbn [replace_from String.length pred].
  rewrite prefix_cons.
  destruct (ascii_dec "/" c) as [<-|n].
  - destruct s; reflexivity.
  - replace (Ascii.eqb c "/") with false; [reflexivity|].
    symmetry. apply Ascii.eqb_neq. congruence.
Qed.

Lemma slash_replace_no_slash (s : string) : contains "/" (str_replace "/" "_" s) = false.
Proof.
  induction s as [|c s IH]; [reflexivity|].
  rewrite slash_replace_cons. cbn [contains]. rewrite IH, prefix_cons, orb_false_r.
  destruct (Ascii.eqb c "/") eqn:E.
  - reflexivity.
  - destruct (ascii_dec "/" c) as [<-|]; [|reflexivity].
    rewrite Ascii.eqb_refl in E. discriminate.
Qed.

Lemma slash_replace_length (s : string) :
  String.length (str_replace "/" "_" s) = String.length s.
Proof.
  induction s as [|c s IH]; [reflexivity|].
  rewrite slash_replace_cons. simpl. now rewrite IH.
Qed.

Lemma slash_replace_app (a b : string) :
  str_replace "/" "_" (a ++ b) = (str_replace "/" "_" a ++ str_replace "/" "_" b)%string.
Proof.
  induction a as [|c a IH]; [reflexivity|].
  simpl (String c a ++ b)%string. rewrite !slash_replace_cons, IH. reflexivity.
Qed.

(** [get_video_url] never fails; the part after
    ["tauri://localhost/video/"] has the path's length and no ['/'], and a
    path with ['/'] and the same path with ['_'] in its place get the same
    URL: the mapping cannot be inverted to recover the file. *)
Theorem get_video_url_flattens (file_path : string) :
  (exists q, get_video_url file_path = ok ("tauri://localhost/video/" ++ q)%string
             /\ contains "/" q = false /\ String.length q = String.length file_path)
  /\ get_video_url (str_replace "/" "_" file_path) = get_video_url file_path
  /\ forall a b, get_video_url (a ++ "/" ++ b) = get_video_url (a ++ "_" ++ b).
Proof.
  split; [|split].
  - exists (str_replace "/" "_" file_path). split; [reflexivity|].
    split; [apply slash_replace_no_slash|apply slash_replace_length].
  - unfold get_video_url. rewrite (str_replace_id "/" "_" (str_replace "/" "_" file_path));
      [reflexivity|apply slash_replace_no_slash].
  - intros a b. unfold get_video_url. rewrite !slash_replace_app. reflexivity.
Qed.

Lemma path_join_absolute (base r : string) :
  path_join base (String "/" r) = String "/" r.
Proof. reflexivity. Qed.

Lemma path_join_relative (base path : string) :
  (forall r, path <> String "/" r) ->
  path_join base path = if need_sep base then (base ++ "/" ++ path)%string else (base ++ path)%string.
Proof.
  intro H. destruct path as [|a r]; [reflexivity|].
  destruct a as [[] [] [] [] [] [] [] []]; try reflexivity.
  exfalso. exact (H r eq_refl).
Qed.

(** [import_video_from_file] imports the very file it wrote: on success
    the data went to the clip's [file_path], which is the file name itself
    when that name is absolute (the temporary directory is then not used)
    and starts with the temporary directory otherwise. *)
Theorem import_from_file_target (parse_f64 : string -> option f64) (from_slice : string -> result Value)
    (path_exists : string -> bool) (new_uuid : string) (ffprobe : list Arg -> ProcResult)
    (write_file : string -> list Byte.byte -> result unit) (temp_dir file_name : string)
    (file_data : list Byte.byte) (c : VideoClip) :
  import_video_from_file parse_f64 from_slice path_exists new_uuid ffprobe write_file
    temp_dir file_name file_data = Ok (ok c) ->
  write_file (file_path c) file_data = ok tt
  /\ import_video parse_f64 from_slice path_exists new_uuid ffprobe (file_path c) = Ok (ok c)
  /\ (forall r, file_name = String "/" r -> file_path c = file_name)
  /\ ((forall r, file_name <> String "/" r) -> String.prefix temp_dir (file_path c) = true).
Proof.
  unfold import_video_from_file.
  destruct (write_file (path_join temp_dir file_name) file_data) as [[]|e] eqn:W; [|discriminate].
  intro H.
  assert (Hp : file_path c = path_join temp_dir file_name).
  { unfold import_video in H. destruct (path_exists (path_join temp_dir file_name)); [|discriminate].
    cbn [negb] in H.
    destruct (get_video_metadata parse_f64 from_slice ffprobe (path_join temp_dir file_name))
      as [[md|e]|]; cbn [bind] in H; try discriminate.
    injection H as <-. reflexivity. }
  rewrite Hp. split; [exact W|]. split; [exact H|]. split.
  - intros r ->. reflexivity.
  - intro Hr. rewrite (path_join_relative _ _ Hr).
    destruct (need_sep temp_dir); apply prefix_app.
Qed.

Lemma import_from_file_target_witness :
  exists c,
    import_video_from_file parse_int_f64 (fun _ => ok probe_two_streams) (fun _ => true) "id-2"%string
      probe_ok (fun _ _ => ok tt) "/tmp"%string "/home/user/clip.mov"%string [] = Ok (ok c)
    /\ file_path c = "/home/user/clip.mov"%string.
Proof.
  assert (E : exists c, import_video_from_file parse_int_f64 (fun _ => ok probe_two_streams)
                          (fun _ => true) "id-2"%string probe_ok (fun _ _ => ok tt) "/tmp"%string
                          "/home/user/clip.mov"%string [] = Ok (ok c)) by (eexists; reflexivity).
  destruct E as [c E]. exists c. split; [exact E|].
  destruct (import_from_file_target parse_int_f64 (fun _ => ok probe_two_streams) (fun _ => true)
              "id-2"%string probe_ok (fun _ _ => ok tt) "/tmp"%string "/home/user/clip.mov"%string
              [] c E) as (_ & _ & Habs & _).
  exact (Habs "home/user/clip.mov"%string eq_refl).
Defined.
